(** * A solar-system scene built on a scene graph: model of [script.js]

    The script builds a scene graph once (sky, stars, lights, sun, six
    planets made by [createPlanet]) and then advances rotation angles on
    every display refresh ([animate]); a [resize] listener adapts the
    camera and the renderer.

    Numbers.  A JavaScript number is modelled as a real number: the
    arithmetic of the script ([+=], [*], [/], [Math.min], [Math.cos],
    [Math.sin], [Math.PI]) is read in exact arithmetic.  Where the script
    stores numbers in a [Float32Array], they are rounded to the binary32
    format as the array does ([Float32.fround]).

    Objects.  Every [THREE.Object3D] the script creates lives in a heap;
    a JavaScript reference to it is its index in the heap.  Dereferencing
    an index that is not allocated makes the model fail ([None]); the
    theorems show that this never happens in the script.

    The three.js classes the script calls ([Object3D.add],
    [MathUtils.degToRad], [EllipseCurve.getPoints], ...) are modelled after
    the library's documented behaviour, next to the place they are used. *)

From Stdlib Require Import Reals Lra Lia.
From stdpp Require Import base option list strings.

Local Open Scope R_scope.

(** ** Numbers and colours *)

(** [THREE.MathUtils] *)
Module MathUtils.
Definition DEG2RAD : R := PI / 180.
Definition degToRad (degrees : R) : R := degrees * DEG2RAD.
(** [randFloatSpread(range)], for a value [u] drawn by [Math.random()] *)
Definition randFloatSpread (range u : R) : R := range * (0.5 - u).
End MathUtils.

(** What a [Float32Array] keeps of a number stored in it: the nearest
    number of the binary32 format, 24 bits of significand with the binary
    exponent at least -126 (below that, the subnormal numbers), and with
    ties going to the even significand.  A number beyond the largest of
    the format is stored as an infinity, which the numbers of this model
    do not have; the script stores coordinates below 1024. *)
Module Float32.

(** the nearest integer, ties to even *)
Definition nearestEven (x : R) : Z :=
  let f := Int_part x in
  if Rlt_dec (x - IZR f) (1 / 2) then f
  else if Rlt_dec (1 / 2) (x - IZR f) then (f + 1)%Z
  else if Z.even f then f else (f + 1)%Z.

(** the binary exponent [e] of a number that is not 0:
    [2^e <= |x| < 2^(e+1)] *)
Definition exponent (x : R) : Z := Int_part (ln (Rabs x) / ln 2).

(** the gap between the numbers of the format next to [x] *)
Definition ulp (x : R) : R := powerRZ 2 (Z.max (exponent x) (-126) - 23).

(** [Math.fround(x)], the conversion a [Float32Array] applies *)
Definition fround (x : R) : R :=
  if Req_dec_T x 0 then 0 else IZR (nearestEven (x / ulp x)) * ulp x.

End Float32.

(** A colour is the integer of its hexadecimal notation, [0xRRGGBB]. *)
Definition Color := N.

Module Vector3.
Record t : Type := mk { x : R; y : R; z : R }.
Definition zero : t := mk 0 0 0.
Definition one : t := mk 1 1 1.
(** Euclidean length, [Vector3.length()] *)
Definition length (v : t) : R := sqrt (x v * x v + y v * y v + z v * z v).
End Vector3.

Module Vector2.
Record t : Type := mk { x : R; y : R }.
End Vector2.

(** Euler angles of an object, in radians ([Object3D.rotation]). *)
Module Euler.
Record t : Type := mk { x : R; y : R; z : R }.
Definition zero : t := mk 0 0 0.
End Euler.

(** ** Geometries and materials *)

Inductive BufferGeometry : Type :=
  | SphereGeometry (radius : R) (widthSegments heightSegments : nat)
  | RingGeometry (innerRadius outerRadius : R) (thetaSegments : nat)
  | FromPoints (points : list Vector3.t)
      (* [new BufferGeometry().setFromPoints(points)] *)
  | PositionAttribute (positions : list R) (itemSize : nat)
      (* [setAttribute('position', new BufferAttribute(positions, itemSize))] *)
  | RotateX (angle : R) (g : BufferGeometry).
      (* [g.rotateX(angle)]: the vertices of [g] turned about the x axis *)

Inductive Side : Type := FrontSide | BackSide | DoubleSide.

Inductive Material : Type :=
  | MeshBasicMaterial (color : Color) (side : Side) (transparent : bool) (opacity : R)
  | MeshStandardMaterial (color : Color) (roughness metalness : R)
                         (emissive : Color) (emissiveIntensity : R)
  | LineBasicMaterial (color : Color)
  | PointsMaterial (color : Color) (size : R) (sizeAttenuation : bool).

(** three.js defaults of the material parameters the script leaves out *)
Definition basicMaterial (color : Color) (side : Side) : Material :=
  MeshBasicMaterial color side false 1.
Definition standardMaterial (color : Color) (roughness metalness : R) : Material :=
  MeshStandardMaterial color roughness metalness 0x000000%N 1.

Definition materialColor (m : Material) : Color :=
  match m with
  | MeshBasicMaterial c _ _ _ => c
  | MeshStandardMaterial c _ _ _ _ => c
  | LineBasicMaterial c => c
  | PointsMaterial c _ _ => c
  end.

(** ** Scene-graph nodes *)

(** A reference to an [Object3D]: its index in the heap. *)
Abbreviation ref := nat (only parsing).

(** What a node draws or is, besides being a transform node. *)
Inductive Drawable : Type :=
  | Group
  | Scene (background : option Color)
  | Mesh (geometry : BufferGeometry) (material : Material)
  | LineLoop (geometry : BufferGeometry) (material : Material)
  | Points (geometry : BufferGeometry) (material : Material)
  | PointLight (color : Color) (intensity : R)
  | AmbientLight (color : Color) (intensity : R).

Record Object3D : Type := mkObject3D {
  position : Vector3.t;
  rotation : Euler.t;
  scale : Vector3.t;
  parent : option ref;
  children : list ref;
  castShadow : bool;
  receiveShadow : bool;
  drawable : Drawable
}.

(** [new THREE.Object3D()] and its subclasses: at the origin, not rotated,
    unit scale, detached, no children, no shadows. *)
Definition object3D (d : Drawable) : Object3D :=
  mkObject3D Vector3.zero Euler.zero Vector3.one None [] false false d.

Definition set_position (v : Vector3.t) (o : Object3D) : Object3D :=
  mkObject3D v (rotation o) (scale o) (parent o) (children o)
             (castShadow o) (receiveShadow o) (drawable o).
Definition set_rotation (e : Euler.t) (o : Object3D) : Object3D :=
  mkObject3D (position o) e (scale o) (parent o) (children o)
             (castShadow o) (receiveShadow o) (drawable o).
Definition set_parent (p : option ref) (o : Object3D) : Object3D :=
  mkObject3D (position o) (rotation o) (scale o) p (children o)
             (castShadow o) (receiveShadow o) (drawable o).
Definition set_children (cs : list ref) (o : Object3D) : Object3D :=
  mkObject3D (position o) (rotation o) (scale o) (parent o) cs
             (castShadow o) (receiveShadow o) (drawable o).
Definition set_castShadow (b : bool) (o : Object3D) : Object3D :=
  mkObject3D (position o) (rotation o) (scale o) (parent o) (children o)
             b (receiveShadow o) (drawable o).
Definition set_receiveShadow (b : bool) (o : Object3D) : Object3D :=
  mkObject3D (position o) (rotation o) (scale o) (parent o) (children o)
             (castShadow o) b (drawable o).
Definition set_drawable (d : Drawable) (o : Object3D) : Object3D :=
  mkObject3D (position o) (rotation o) (scale o) (parent o) (children o)
             (castShadow o) (receiveShadow o) d.

(** [o.rotation.z = a] *)
Definition set_rotation_z (a : R) (o : Object3D) : Object3D :=
  set_rotation (Euler.mk (Euler.x (rotation o)) (Euler.y (rotation o)) a) o.
(** [o.rotation.y += a] *)
Definition add_rotation_y (a : R) (o : Object3D) : Object3D :=
  set_rotation (Euler.mk (Euler.x (rotation o)) (Euler.y (rotation o) + a)
                         (Euler.z (rotation o))) o.
(** [o.children.push(c)] *)
Definition push_child (c : ref) (o : Object3D) : Object3D :=
  set_children (children o ++ [c]) o.

(** ** The heap and its monad *)

(** The heap: the objects allocated so far, in the order of allocation. *)
Abbreviation Heap := (list Object3D) (only parsing).

(** A computation on the heap that returns an [A], or fails. *)
Definition M (A : Type) : Type := Heap -> option (A * Heap).

#[global] Instance M_ret : MRet M := fun A a h => Some (a, h).
#[global] Instance M_bind : MBind M := fun A B f m h =>
  match m h with
  | Some (a, h') => f a h'
  | None => None
  end.

(** [new C(...)]: allocate a node, return the reference to it. *)
Definition new (o : Object3D) : M ref :=
  fun h => Some (length h, h ++ [o]).

(** read the object behind a reference *)
Definition get (r : ref) : M Object3D :=
  fun h => match h !! r with Some o => Some (o, h) | None => None end.

(** update the object behind a reference in place *)
Definition modify (f : Object3D -> Object3D) (r : ref) : M unit :=
  fun h => match h !! r with Some _ => Some (tt, alter f r h) | None => None end.

(** [for (const a of l) { f(a) }] *)
Fixpoint forEach {A : Type} (f : A -> M unit) (l : list A) : M unit :=
  match l with
  | [] => mret tt
  | a :: l' => f a ;; forEach f l'
  end.

(** ** [Object3D.add] and [Object3D.remove] *)

(** [array.splice(array.indexOf(c), 1)]: drop the first occurrence. *)
Fixpoint remove_first (c : ref) (l : list ref) : list ref :=
  match l with
  | [] => []
  | a :: l' => if decide (a = c) then l' else a :: remove_first c l'
  end.

(** [p.remove(c)]: when [c] is a child of [p], detach it. *)
Definition remove (p c : ref) : M unit :=
  po ← get p;
  if decide (c ∈ children po)
  then modify (set_parent None) c ;;
       modify (fun o => set_children (remove_first c (children o)) o) p
  else mret tt.

(** [c.removeFromParent()] *)
Definition removeFromParent (c : ref) : M unit :=
  co ← get c;
  match parent co with
  | Some p => remove p c
  | None => mret tt
  end.

(** [p.add(c)]: an object cannot be added to itself; otherwise it leaves
    its former parent, if any, and becomes the last child of [p]. *)
Definition add (p c : ref) : M unit :=
  if decide (c = p) then mret tt
  else removeFromParent c ;;
       modify (set_parent (Some p)) c ;;
       modify (push_child c) p.

(** ** [THREE.EllipseCurve] *)

Module EllipseCurve.

Record t : Type := mk {
  aX : R; aY : R;
  xRadius : R; yRadius : R;
  aStartAngle : R; aEndAngle : R;
  aClockwise : bool;
  aRotation : R
}.

(** [Number.EPSILON] *)
Definition EPSILON : R := / 2 ^ 52.

(** [curve.getPoint(t)].  The library first brings [deltaAngle] into
    [0, 2 PI] by adding or subtracting [2 PI]; the arcs modelled here have
    [0 <= aEndAngle - aStartAngle <= 2 PI], for which those two loops do
    not iterate. *)
Definition getPoint (c : t) (u : R) : Vector2.t :=
  let twoPi := PI * 2 in
  let deltaAngle := aEndAngle c - aStartAngle c in
  let samePoints := if Rlt_dec (Rabs deltaAngle) EPSILON then true else false in
  let deltaAngle :=
    if Rlt_dec deltaAngle EPSILON
    then (if samePoints then 0 else twoPi)
    else deltaAngle in
  let deltaAngle :=
    if aClockwise c && negb samePoints
    then (if Req_dec_T deltaAngle twoPi then - twoPi else deltaAngle - twoPi)
    else deltaAngle in
  let angle := aStartAngle c + u * deltaAngle in
  let x := aX c + xRadius c * cos angle in
  let y := aY c + yRadius c * sin angle in
  if Req_dec_T (aRotation c) 0 then Vector2.mk x y
  else
    let tx := x - aX c in
    let ty := y - aY c in
    Vector2.mk (tx * cos (aRotation c) - ty * sin (aRotation c) + aX c)
               (tx * sin (aRotation c) + ty * cos (aRotation c) + aY c).

(** [curve.getPoints(divisions)]: the points at [d / divisions] for
    [d = 0, ..., divisions]. *)
Definition getPoints (c : t) (divisions : nat) : list Vector2.t :=
  map (fun d => getPoint c (INR d / INR divisions)) (seq 0 (S divisions)).

End EllipseCurve.

(** ** The body factory *)

(** [{ inner, outer, color }] *)
Module Ring.
Record t : Type := mk { inner : R; outer : R; color : Color }.
End Ring.

(** [{ radius, distance, orbitalSpeed, color }]; [color] may be left out. *)
Module Moon.
Record t : Type := mk {
  radius : R;
  distance : R;
  orbitalSpeed : R;
  color : option Color
}.
End Moon.

(** The argument of [createPlanet].  Each field may be left out ([None]);
    for [ring], [None] is also the value [null]. *)
Module Params.
Record t : Type := mk {
  name : option string;
  radius : option R;
  color : option Color;
  distance : option R;
  orbitalSpeed : option R;
  spinSpeed : option R;
  tiltDeg : option R;
  ring : option Ring.t;
  moons : option (list Moon.t)
}.
(** [{}] *)
Definition empty : t := mk None None None None None None None None None.
End Params.

(** [{ pivot, speed }] *)
Module MoonHandle.
Record t : Type := mk { pivot : ref; speed : R }.
End MoonHandle.

(** The object [createPlanet] returns. *)
Module Handle.
Record t : Type := mk {
  name : string;
  orbitPivot : ref;
  planetGroup : ref;
  mesh : ref;
  ringMesh : option ref;
  spinSpeed : R;
  orbitalSpeed : R;
  moonPivots : list MoonHandle.t
}.
End Handle.

(** The body of [for (const m of moons) { ... }]: one moon, its pivot
    attached to [planetGroup]; the new handle is pushed on [moonPivots]. *)
Definition createMoon (planetGroup : ref) (moonPivots : list MoonHandle.t)
    (m : Moon.t) : M (list MoonHandle.t) :=
  moonPivot ← new (object3D Group);
  add planetGroup moonPivot ;;
  let moonGeo := SphereGeometry (Moon.radius m) 24 24 in
  let moonMat := standardMaterial (default 0xaaaaaa%N (Moon.color m)) 0.8 0 in
  moonMesh ← new (object3D (Mesh moonGeo moonMat));
  modify (set_position (Vector3.mk (Moon.distance m) 0 0)) moonMesh ;;
  add moonPivot moonMesh ;;
  mret (moonPivots ++ [MoonHandle.mk moonPivot (Moon.orbitalSpeed m)]).

(** [for (const m of moons) { ... }], from the array [moonPivots] so far *)
Fixpoint createMoons (planetGroup : ref) (moonPivots : list MoonHandle.t)
    (moons : list Moon.t) : M (list MoonHandle.t) :=
  match moons with
  | [] => mret moonPivots
  | m :: moons' =>
      moonPivots' ← createMoon planetGroup moonPivots m;
      createMoons planetGroup moonPivots' moons'
  end.

(** The vertices of the orbit line: the 129 points of the circle of radius
    [distance], laid in the plane y = 0. *)
Definition orbitPoints (distance : R) : list Vector3.t :=
  let curve := EllipseCurve.mk 0 0 distance distance 0 (2 * PI) false 0 in
  map (fun p => Vector3.mk (Vector2.x p) 0 (Vector2.y p))
      (EllipseCurve.getPoints curve 128).

(** The [if (ring) { ... }] block. *)
Definition createRing (planetGroup : ref) (ring : option Ring.t) : M (option ref) :=
  match ring with
  | Some ring =>
      let ringGeo := RingGeometry (Ring.inner ring) (Ring.outer ring) 64 in
      let ringGeo := RotateX (- PI / 2) ringGeo in
      ringMesh ← new (object3D (Mesh ringGeo
                         (MeshBasicMaterial (Ring.color ring) DoubleSide true 0.6)));
      add planetGroup ringMesh ;;
      mret (Some ringMesh)
  | None => mret None
  end.

(** [createPlanet({ name = 'planet', radius = 2, ... })]; [sunGroup] is the
    module-level constant the function closes over. *)
Definition createPlanet (sunGroup : ref) (params : Params.t) : M Handle.t :=
  let name := default "planet"%string (Params.name params) in
  let radius := default 2 (Params.radius params) in
  let color := default 0xB1B1B1%N (Params.color params) in
  let distance := default 25 (Params.distance params) in
  let orbitalSpeed := default 0.5 (Params.orbitalSpeed params) in
  let spinSpeed := default 15 (Params.spinSpeed params) in
  let tiltDeg := default 0 (Params.tiltDeg params) in
  let ring := Params.ring params in
  let moons := default [] (Params.moons params) in
  orbitPivot ← new (object3D Group);
  modify (set_position (Vector3.mk 0 0 0)) orbitPivot ;;
  add sunGroup orbitPivot ;;
  (* visual orbit path *)
  let orbitGeo := FromPoints (orbitPoints distance) in
  let orbitMat := LineBasicMaterial 0x333344%N in
  orbitLine ← new (object3D (LineLoop orbitGeo orbitMat));
  add orbitPivot orbitLine ;;
  planetGroup ← new (object3D Group);
  modify (set_position (Vector3.mk distance 0 0)) planetGroup ;;
  modify (set_rotation_z (MathUtils.degToRad tiltDeg)) planetGroup ;;
  add orbitPivot planetGroup ;;
  let geo := SphereGeometry radius 32 32 in
  let mat := standardMaterial color 0.7 0.0 in
  mesh ← new (object3D (Mesh geo mat));
  modify (set_castShadow false) mesh ;;
  modify (set_receiveShadow false) mesh ;;
  add planetGroup mesh ;;
  ringMesh ← createRing planetGroup ring;
  moonPivots ← createMoons planetGroup [] moons;
  mret (Handle.mk name orbitPivot planetGroup mesh ringMesh
                  spinSpeed orbitalSpeed moonPivots).

(** ** The factory called with any argument *)

(** A JavaScript value where a value of type [A] is expected: [undefined]
    (also: left out), [null], or a value of that type. *)
Module Js.
Inductive t (A : Type) : Type :=
  | undefined : t A
  | null : t A
  | value (a : A) : t A.
Arguments undefined {A}.
Arguments null {A}.
Arguments value {A} a.
End Js.

(** An object passed to [createPlanet].  Its fields are those of
    [Params.t], which says of each whether it is left out; [moons] may in
    addition be [null], which no default replaces. *)
Module Literal.
Record t : Type := mk {
  name : option string;
  radius : option R;
  color : option Color;
  distance : option R;
  orbitalSpeed : option R;
  spinSpeed : option R;
  tiltDeg : option R;
  ring : option Ring.t;
  moons : Js.t (list Moon.t)
}.
(** [{}] *)
Definition empty : t := mk None None None None None None None None Js.undefined.
(** the array [moons], when it is one *)
Definition moonsArray (o : t) : option (list Moon.t) :=
  match moons o with
  | Js.value ms => Some ms
  | Js.undefined | Js.null => None
  end.
(** the object as a parameter record *)
Definition params (o : t) : Params.t :=
  Params.mk (name o) (radius o) (color o) (distance o) (orbitalSpeed o)
            (spinSpeed o) (tiltDeg o) (ring o) (moonsArray o).
End Literal.

(** How a call ends: it returns, or it throws a [TypeError] with the heap
    as the statements before have left it.  [Stuck] stands for the use of
    a reference that is not allocated, as [None] does in [M]. *)
Inductive Outcome (A : Type) : Type :=
  | Returned (a : A) (h : list Object3D)
  | Thrown (h : list Object3D)
  | Stuck.
Arguments Returned {A} a h.
Arguments Thrown {A} h.
Arguments Stuck {A}.

(** The statements of [createPlanet] before the loop over [moons], lines 90
    to 127: they return the orbit pivot, the body group, the mesh and the
    ring mesh. *)
Definition createPlanetBody (sunGroup : ref) (params : Params.t)
    : M (ref * ref * ref * option ref) :=
  let radius := default 2 (Params.radius params) in
  let color := default 0xB1B1B1%N (Params.color params) in
  let distance := default 25 (Params.distance params) in
  let tiltDeg := default 0 (Params.tiltDeg params) in
  let ring := Params.ring params in
  orbitPivot ← new (object3D Group);
  modify (set_position (Vector3.mk 0 0 0)) orbitPivot ;;
  add sunGroup orbitPivot ;;
  let orbitGeo := FromPoints (orbitPoints distance) in
  let orbitMat := LineBasicMaterial 0x333344%N in
  orbitLine ← new (object3D (LineLoop orbitGeo orbitMat));
  add orbitPivot orbitLine ;;
  planetGroup ← new (object3D Group);
  modify (set_position (Vector3.mk distance 0 0)) planetGroup ;;
  modify (set_rotation_z (MathUtils.degToRad tiltDeg)) planetGroup ;;
  add orbitPivot planetGroup ;;
  let geo := SphereGeometry radius 32 32 in
  let mat := standardMaterial color 0.7 0.0 in
  mesh ← new (object3D (Mesh geo mat));
  modify (set_castShadow false) mesh ;;
  modify (set_receiveShadow false) mesh ;;
  add planetGroup mesh ;;
  ringMesh ← createRing planetGroup ring;
  mret (orbitPivot, planetGroup, mesh, ringMesh).

(** The call [createPlanet(arg)], exceptions included.  The parameter is a
    destructuring pattern without a default of its own: binding it to
    [undefined] or [null] throws before the first statement.  A field that
    is [undefined] takes its default; [moons: null] stays [null], and
    [for (const m of null)] throws at line 128, after the pivot, the orbit
    line, the body group, the mesh and the ring have been made and
    attached. *)
Definition callCreatePlanet (sunGroup : ref) (arg : Js.t Literal.t)
    (h : list Object3D) : Outcome Handle.t :=
  match arg with
  | Js.undefined | Js.null => Thrown h
  | Js.value o =>
      let params := Literal.params o in
      let name := default "planet"%string (Params.name params) in
      let orbitalSpeed := default 0.5 (Params.orbitalSpeed params) in
      let spinSpeed := default 15 (Params.spinSpeed params) in
      match createPlanetBody sunGroup params h with
      | None => Stuck
      | Some ((orbitPivot, planetGroup, mesh, ringMesh), h1) =>
          match Literal.moons o with
          | Js.null => Thrown h1
          | Js.undefined | Js.value _ =>
              let moons := default [] (Params.moons params) in
              match createMoons planetGroup [] moons h1 with
              | None => Stuck
              | Some (moonPivots, h2) =>
                  Returned (Handle.mk name orbitPivot planetGroup mesh ringMesh
                                      spinSpeed orbitalSpeed moonPivots) h2
              end
          end
      end
  end.

(** ** Camera, renderer and host *)

Module PerspectiveCamera.

(** The arguments of [Matrix4.makePerspective]: they determine the
    projection matrix. *)
Record Projection : Type := makePerspective {
  left : R; right : R; top : R; bottom : R; pnear : R; pfar : R
}.

(** A [THREE.PerspectiveCamera] with the default zoom 1 and no film offset.
    The camera is never added to the scene, so it is kept apart from the
    heap of scene-graph nodes. *)
Record t : Type := mk {
  fov : R;
  aspect : R;
  near : R;
  far : R;
  position : Vector3.t;
  rotation : Euler.t;
  projectionMatrix : Projection
}.

(** The projection that belongs to the current [fov], [aspect], [near]
    and [far]. *)
Definition projection (c : t) : Projection :=
  let top := near c * tan (MathUtils.DEG2RAD * 0.5 * fov c) in
  let height := 2 * top in
  let width := aspect c * height in
  let left := - 0.5 * width in
  makePerspective left (left + width) top (top - height) (near c) (far c).

(** [camera.updateProjectionMatrix()] *)
Definition updateProjectionMatrix (c : t) : t :=
  mk (fov c) (aspect c) (near c) (far c) (position c) (rotation c) (projection c).

(** [camera.aspect = a] *)
Definition set_aspect (a : R) (c : t) : t :=
  mk (fov c) a (near c) (far c) (position c) (rotation c) (projectionMatrix c).

(** [camera.position.set(x, y, z)] and what [OrbitControls] does to the
    camera: a new position and orientation. *)
Definition set_pose (pose : Vector3.t * Euler.t) (c : t) : t :=
  mk (fov c) (aspect c) (near c) (far c) (fst pose) (snd pose) (projectionMatrix c).

(** [new THREE.PerspectiveCamera(fov, aspect, near, far)] *)
Definition create (fov aspect near far : R) : t :=
  updateProjectionMatrix
    (mk fov aspect near far Vector3.zero Euler.zero
        (makePerspective 0 0 0 0 0 0)).

End PerspectiveCamera.

Module WebGLRenderer.

(** The renderer: its pixel ratio, its logical size, the pixel size of the
    output surface (the canvas), and the number of frames submitted. *)
Record t : Type := mk {
  pixelRatio : R;
  width : R;
  height : R;
  canvasWidth : R;
  canvasHeight : R;
  frames : nat
}.

(** Modelled from the spec: [renderer.setSize(w, h)] of three.js, which is
    not part of the script.  It resizes the output surface to the given
    dimensions scaled by the renderer's pixel ratio. *)
Definition setSize (w h : R) (r : t) : t :=
  mk (pixelRatio r) w h (w * pixelRatio r) (h * pixelRatio r) (frames r).

(** Modelled from the spec: [renderer.setPixelRatio(value)] of three.js.
    It records the ratio and resizes the surface for the current size. *)
Definition setPixelRatio (value : R) (r : t) : t :=
  setSize (width r) (height r)
          (mk value (width r) (height r) (canvasWidth r) (canvasHeight r) (frames r)).

(** [renderer.render(scene, camera)]: one more frame submitted. *)
Definition render (r : t) : t :=
  mk (pixelRatio r) (width r) (height r) (canvasWidth r) (canvasHeight r)
     (S (frames r)).

(** [new THREE.WebGLRenderer({ canvas, antialias: true })] on a canvas of
    the given size. *)
Definition create (canvasWidth canvasHeight : R) : t :=
  mk 1 canvasWidth canvasHeight canvasWidth canvasHeight 0.

End WebGLRenderer.

(** What the script reads from the browser and the user. *)
Record Host : Type := mkHost {
  (** [window.innerWidth], [window.innerHeight], [window.devicePixelRatio]
      when the script starts *)
  innerWidth : R;
  innerHeight : R;
  devicePixelRatio : R;
  (** the size of the [canvas.webgl] element when the script starts *)
  canvasSize : R * R;
  (** the value of the k-th call of [Math.random()] *)
  random : nat -> R;
  (** what the k-th call of [controls.update()] does to the position and
      orientation of the camera (user input and damping) *)
  orbit : nat -> Vector3.t * Euler.t -> Vector3.t * Euler.t
}.

(** ** The scene assembler *)

(** The [positions] array of the star points, a [Float32Array]: three
    coordinates per star, each star drawing three random numbers; a
    coordinate is rounded to binary32 when it is stored. *)
Definition starPositions (random : nat -> R) (starCount : nat) : list R :=
  flat_map
    (fun i : nat =>
       let r := 300 + random (3 * i)%nat * 500 in
       let theta := acos (MathUtils.randFloatSpread 2 (random (3 * i + 1)%nat)) in
       let phi := MathUtils.randFloatSpread (PI * 2) (random (3 * i + 2)%nat) in
       [ Float32.fround (r * sin theta * cos phi);
         Float32.fround (r * cos theta);
         Float32.fround (r * sin theta * sin phi) ])
    (seq 0 starCount).

(** The six calls of [createPlanet], as written in the script. *)
Definition mercury : Params.t :=
  Params.mk (Some "mercury"%string) (Some 2) (Some 0xB1B1B1%N) (Some 22)
            (Some 47.8) (Some 3.0) None None None.
Definition venus : Params.t :=
  Params.mk (Some "venus"%string) (Some 3) (Some 0xEEDC82%N) (Some 34)
            (Some 35) (Some (- 2.0)) None None None.
Definition earth : Params.t :=
  Params.mk (Some "earth"%string) (Some 3.2) (Some 0x2E8B57%N) (Some 48)
            (Some 29.7) (Some 18.0) (Some 23.5) None
            (Some [Moon.mk 0.9 6 12.0 (Some 0xffffff%N)]).
Definition mars : Params.t :=
  Params.mk (Some "mars"%string) (Some 2.4) (Some 0xB22222%N) (Some 62)
            (Some 24.1) (Some 16.0) None None
            (Some [Moon.mk 0.6 4.5 18.0 (Some 0xdddddd%N)]).
Definition jupiter : Params.t :=
  Params.mk (Some "jupiter"%string) (Some 7.0) (Some 0xD2B48C%N) (Some 95)
            (Some 13.1) (Some 19.0) None None
            (Some [Moon.mk 0.6 4.5 18.0 (Some 0xdddddd%N)]).
Definition saturn : Params.t :=
  Params.mk (Some "saturn"%string) (Some 6.5) (Some 0xF5DEB3%N) (Some 115)
            (Some 9.6) (Some 22.0) (Some 26.7)
            (Some (Ring.mk 8.0 12.0 0xdccfa0%N)) None.

(** The module-level constants that refer to scene-graph nodes, and the
    [planets] array. *)
Record Globals : Type := mkGlobals {
  scene : ref;
  starField : ref;
  sunLight : ref;
  sunGroup : ref;
  sun : ref;
  planets : list Handle.t
}.

(** [planets.push(createPlanet(params))] *)
Definition pushPlanet (sunGroup : ref) (planets : list Handle.t)
    (params : Params.t) : M (list Handle.t) :=
  handle ← createPlanet sunGroup params;
  mret (planets ++ [handle]).

(** The section "Create Planets" of the script: the array [planets] and the
    six pushes. *)
Definition createPlanets (sunGroup : ref) : M (list Handle.t) :=
  let planets := [] in
  planets ← pushPlanet sunGroup planets mercury;
  planets ← pushPlanet sunGroup planets venus;
  planets ← pushPlanet sunGroup planets earth;
  planets ← pushPlanet sunGroup planets mars;
  planets ← pushPlanet sunGroup planets jupiter;
  planets ← pushPlanet sunGroup planets saturn;
  mret planets.

(** The statements of the script that build the scene graph, in order. *)
Definition buildScene (random : nat -> R) : M Globals :=
  scene ← new (object3D (Scene None));
  modify (set_drawable (Scene (Some 0x000000%N))) scene ;;
  (* stars *)
  let starGeo := SphereGeometry 900 32 32 in
  let starMat := basicMaterial 0x05050a%N BackSide in
  starField ← new (object3D (Mesh starGeo starMat));
  add scene starField ;;
  let pGeo := PositionAttribute (starPositions random 2000) 3 in
  let pMat := PointsMaterial 0xffffff%N 0.8 true in
  points ← new (object3D (Points pGeo pMat));
  add scene points ;;
  (* lighting *)
  sunLight ← new (object3D (PointLight 0xffffff%N 15000));
  add scene sunLight ;;
  ambient ← new (object3D (AmbientLight 0x222233%N 0.15));
  add scene ambient ;;
  (* sun *)
  sunGroup ← new (object3D Group);
  add scene sunGroup ;;
  let sunGeo := SphereGeometry 12 48 48 in
  let sunMat := MeshStandardMaterial 0x222222%N 0.6 0.0 0xffaa33%N 1.8 in
  sun ← new (object3D (Mesh sunGeo sunMat));
  modify (set_castShadow false) sun ;;
  modify (set_receiveShadow false) sun ;;
  add sunGroup sun ;;
  modify (set_position (Vector3.mk 0 0 0)) sunLight ;;
  add sunGroup sunLight ;;
  (* planets *)
  planets ← createPlanets sunGroup;
  mret (mkGlobals scene starField sunLight sunGroup sun planets).

(** ** The program state *)

Record Program : Type := mkProgram {
  heap : Heap;
  globals : Globals;
  camera : PerspectiveCamera.t;
  renderer : WebGLRenderer.t;
  (** how many times [controls.update()] has run *)
  controlsUpdates : nat
}.

(** [const renderer = ...] with its pixel ratio and size set *)
Definition initialRenderer (host : Host) : WebGLRenderer.t :=
  let renderer := WebGLRenderer.create (fst (canvasSize host)) (snd (canvasSize host)) in
  let renderer := WebGLRenderer.setPixelRatio (Rmin (devicePixelRatio host) 2) renderer in
  WebGLRenderer.setSize (innerWidth host) (innerHeight host) renderer.

(** [const camera = ...] placed at (0, 60, 130); creating the
    [OrbitControls] updates them once. *)
Definition initialCamera (host : Host) : PerspectiveCamera.t :=
  let camera := PerspectiveCamera.create 75 (innerWidth host / innerHeight host) 0.1 2000 in
  let camera := PerspectiveCamera.set_pose
                  (Vector3.mk 0 60 130, PerspectiveCamera.rotation camera) camera in
  PerspectiveCamera.set_pose
    (orbit host 0 (PerspectiveCamera.position camera, PerspectiveCamera.rotation camera))
    camera.

(** The script from its first line up to, and not including, the first
    call of [animate]. *)
Definition main (host : Host) : option Program :=
  let renderer := initialRenderer host in
  let camera := initialCamera host in
  '(globals, heap) ← buildScene (random host) [];
  Some (mkProgram heap globals camera renderer 1).

(** ** The animation driver *)

(** The body of [for (const p of planets) { ... }]. *)
Definition animatePlanet (dt : R) (p : Handle.t) : M unit :=
  modify (add_rotation_y (MathUtils.degToRad (Handle.orbitalSpeed p) * dt))
         (Handle.orbitPivot p) ;;
  modify (add_rotation_y (MathUtils.degToRad (Handle.spinSpeed p) * dt))
         (Handle.mesh p) ;;
  forEach (fun m =>
             modify (add_rotation_y (MathUtils.degToRad (MoonHandle.speed m) * dt))
                    (MoonHandle.pivot m))
          (Handle.moonPivots p).

(** The rotation updates of one tick. *)
Definition updateRotations (g : Globals) (dt : R) : M unit :=
  modify (add_rotation_y (MathUtils.degToRad 2.0 * dt)) (sun g) ;;
  forEach (animatePlanet dt) (planets g).

(** One call of [animate], where [dt] is the value of [clock.getDelta()]:
    the rotation updates, then [controls.update()], then
    [renderer.render(scene, camera)]. *)
Definition animate (host : Host) (dt : R) (P : Program) : option Program :=
  '(_, heap') ← updateRotations (globals P) dt (heap P);
  let camera' :=
    PerspectiveCamera.set_pose
      (orbit host (controlsUpdates P)
             (PerspectiveCamera.position (camera P), PerspectiveCamera.rotation (camera P)))
      (camera P) in
  Some (mkProgram heap' (globals P) camera' (WebGLRenderer.render (renderer P))
                  (S (controlsUpdates P))).

(** [requestAnimationFrame(animate)]: the ticks follow one another, one per
    elapsed time in [dts]. *)
Fixpoint run (host : Host) (dts : list R) (P : Program) : option Program :=
  match dts with
  | [] => Some P
  | dt :: dts' => P' ← animate host dt P; run host dts' P'
  end.

(** ** The viewport adapter *)

(** The [resize] listener, for [window.innerWidth = w] and
    [window.innerHeight = h] at the time of the event. *)
Definition onResize (w h : R) (P : Program) : Program :=
  let camera := PerspectiveCamera.set_aspect (w / h) (camera P) in
  let camera := PerspectiveCamera.updateProjectionMatrix camera in
  let renderer := WebGLRenderer.setSize w h (renderer P) in
  mkProgram (heap P) (globals P) camera renderer (controlsUpdates P).

(** ** What [createPlanet] allocates

    [createPlanet] allocates its nodes one after the other, so the
    references it hands out are consecutive: for a heap of [n] objects,
    the orbit pivot is [n], the orbit line [n + 1], the body group
    [n + 2], the body mesh [n + 3]; then comes the ring mesh, if there is
    a ring, and then two nodes per moon, its pivot and its mesh.  The
    functions below describe the handle and the nodes in their final state;
    [createPlanet_run] proves that they are what [createPlanet] computes. *)

(** [o.children.push(c)] for each [c] of [cs] in turn *)
Definition push_children (cs : list nat) (o : Object3D) : Object3D :=
  set_children (children o ++ cs) o.

(** the handles of the moons whose first pivot is [base] *)
Fixpoint moonHandles (base : nat) (moons : list Moon.t) : list MoonHandle.t :=
  match moons with
  | [] => []
  | m :: moons' =>
      MoonHandle.mk base (Moon.orbitalSpeed m) :: moonHandles (base + 2) moons'
  end.

(** the pivot of a moon in its final state; its mesh is allocated next *)
Definition moonPivotNode (planetGroup base : nat) : Object3D :=
  set_children [(base + 1)%nat] (set_parent (Some planetGroup) (object3D Group)).

(** the mesh of a moon in its final state *)
Definition moonMeshNode (base : nat) (m : Moon.t) : Object3D :=
  set_parent (Some base)
    (set_position (Vector3.mk (Moon.distance m) 0 0)
       (object3D (Mesh (SphereGeometry (Moon.radius m) 24 24)
                       (standardMaterial (default 0xaaaaaa%N (Moon.color m)) 0.8 0)))).

(** the pivot and the mesh of each moon *)
Fixpoint moonNodes (planetGroup base : nat) (moons : list Moon.t) : list Object3D :=
  match moons with
  | [] => []
  | m :: moons' =>
      moonPivotNode planetGroup base :: moonMeshNode base m
      :: moonNodes planetGroup (base + 2) moons'
  end.

(** the ring mesh in its final state *)
Definition ringNode (planetGroup : nat) (ring : Ring.t) : Object3D :=
  set_parent (Some planetGroup)
    (object3D (Mesh (RotateX (- PI / 2)
                       (RingGeometry (Ring.inner ring) (Ring.outer ring) 64))
                    (MeshBasicMaterial (Ring.color ring) DoubleSide true 0.6))).

(** how many nodes the ring takes *)
Definition ringSize (ring : option Ring.t) : nat :=
  match ring with Some _ => 1%nat | None => 0%nat end.

(** the handle returned for a heap of [n] objects *)
Definition planetHandle (n : nat) (params : Params.t) : Handle.t :=
  Handle.mk (default "planet"%string (Params.name params))
            n (n + 2) (n + 3)
            (match Params.ring params with
             | Some _ => Some (n + 4)%nat
             | None => None
             end)
            (default 15 (Params.spinSpeed params))
            (default 0.5 (Params.orbitalSpeed params))
            (moonHandles (n + 4 + ringSize (Params.ring params))
                         (default [] (Params.moons params))).

(** the nodes allocated for a heap of [n] objects, in their final state *)
Definition planetNodes (n sunGroup : nat) (params : Params.t) : list Object3D :=
  let distance := default 25 (Params.distance params) in
  let ring := Params.ring params in
  let moons := default [] (Params.moons params) in
  let h := planetHandle n params in
  [ (* orbit pivot *)
    set_children [(n + 1)%nat; (n + 2)%nat]
      (set_parent (Some sunGroup) (object3D Group));
    (* orbit line *)
    set_parent (Some n)
      (object3D (LineLoop (FromPoints (orbitPoints distance))
                          (LineBasicMaterial 0x333344%N)));
    (* body group *)
    set_children ((n + 3)%nat :: option_list (Handle.ringMesh h)
                    ++ map MoonHandle.pivot (Handle.moonPivots h))
      (set_parent (Some n)
         (set_rotation_z (MathUtils.degToRad (default 0 (Params.tiltDeg params)))
            (set_position (Vector3.mk distance 0 0) (object3D Group))));
    (* body mesh *)
    set_parent (Some (n + 2)%nat)
      (object3D (Mesh (SphereGeometry (default 2 (Params.radius params)) 32 32)
                      (standardMaterial (default 0xB1B1B1%N (Params.color params))
                                        0.7 0.0))) ]
  ++ match ring with Some ring => [ringNode (n + 2) ring] | None => [] end
  ++ moonNodes (n + 2) (n + 4 + ringSize ring) moons.

(** the nodes allocated before the loop over the moons, as they are then *)
Definition bodyNodes (n sunGroup : nat) (params : Params.t) : list Object3D :=
  let distance := default 25 (Params.distance params) in
  let ring := Params.ring params in
  [ set_children [(n + 1)%nat; (n + 2)%nat]
      (set_parent (Some sunGroup) (object3D Group));
    set_parent (Some n)
      (object3D (LineLoop (FromPoints (orbitPoints distance))
                          (LineBasicMaterial 0x333344%N)));
    set_children ((n + 3)%nat
                    :: match ring with Some _ => [(n + 4)%nat] | None => [] end)
      (set_parent (Some n)
         (set_rotation_z (MathUtils.degToRad (default 0 (Params.tiltDeg params)))
            (set_position (Vector3.mk distance 0 0) (object3D Group))));
    set_parent (Some (n + 2)%nat)
      (object3D (Mesh (SphereGeometry (default 2 (Params.radius params)) 32 32)
                      (standardMaterial (default 0xB1B1B1%N (Params.color params))
                                        0.7 0.0))) ]
  ++ match ring with Some ring => [ringNode (n + 2) ring] | None => [] end.

(** ** What one tick turns *)

(** The nodes a planet handle makes [animate] turn, each with its speed in
    degrees per second, in the order of the loop body. *)
Definition planetSpeeds (p : Handle.t) : list (nat * R) :=
  (Handle.orbitPivot p, Handle.orbitalSpeed p)
  :: (Handle.mesh p, Handle.spinSpeed p)
  :: map (fun m => (MoonHandle.pivot m, MoonHandle.speed m)) (Handle.moonPivots p).

(** All the updates of one tick, in order: the sun first. *)
Definition speeds (g : Globals) : list (nat * R) :=
  (sun g, 2.0) :: flat_map planetSpeeds (planets g).

(** The references [animate] writes to. *)
Definition animated (g : Globals) : list nat := map fst (speeds g).

(** [o.rotation.y += degToRad(speed) * dt] at each reference of the list *)
Definition turnAll (dt : R) (l : list (nat * R)) (h : list Object3D) : list Object3D :=
  foldl (fun h rs => alter (add_rotation_y (MathUtils.degToRad (snd rs) * dt)) (fst rs) h)
        h l.

(** The angle by which the updates of the list turn the node [r] in all. *)
Fixpoint angleOf (dt : R) (l : list (nat * R)) (r : nat) : R :=
  match l with
  | [] => 0
  | rs :: l' =>
      (if decide (fst rs = r) then MathUtils.degToRad (snd rs) * dt else 0)
      + angleOf dt l' r
  end.

(** [o.rotation.y] of the object behind [r] *)
Definition rotationY (h : list Object3D) (r : nat) : option R :=
  (fun o => Euler.y (rotation o)) <$> h !! r.

(** ** The states of the program *)

(** The states the program goes through: the one the script builds, and
    from there the ticks of the animation loop and the resize events, in
    any order. *)
Inductive reachable (host : Host) : Program -> Prop :=
  | reachable_main P :
      main host = Some P -> reachable host P
  | reachable_animate dt P P' :
      reachable host P -> animate host dt P = Some P' -> reachable host P'
  | reachable_resize w h P :
      reachable host P -> reachable host (onResize w h P).

(** The module-level constants after the script has run: the references
    are those of the allocation order. *)
Definition sceneGlobals : Globals :=
  mkGlobals 0 1 3 5 6
    [ planetHandle 7 mercury; planetHandle 11 venus; planetHandle 15 earth;
      planetHandle 21 mars; planetHandle 27 jupiter; planetHandle 33 saturn ].

(** The scene graph after the script has run: the sky, the star points,
    the lights and the sun, then the nodes of the six planets.  The sun
    light has moved from the scene to the sun group. *)
Definition sceneHeap (random : nat -> R) : list Object3D :=
  [ (* 0: scene *)
    set_children [1; 2; 4; 5]%nat (object3D (Scene (Some 0x000000%N)));
    (* 1: starField *)
    set_parent (Some 0%nat)
      (object3D (Mesh (SphereGeometry 900 32 32) (basicMaterial 0x05050a%N BackSide)));
    (* 2: star points *)
    set_parent (Some 0%nat)
      (object3D (Points (PositionAttribute (starPositions random 2000) 3)
                        (PointsMaterial 0xffffff%N 0.8 true)));
    (* 3: sunLight *)
    set_parent (Some 5%nat) (object3D (PointLight 0xffffff%N 15000));
    (* 4: ambient light *)
    set_parent (Some 0%nat) (object3D (AmbientLight 0x222233%N 0.15));
    (* 5: sunGroup *)
    set_children [6; 3; 7; 11; 15; 21; 27; 33]%nat
      (set_parent (Some 0%nat) (object3D Group));
    (* 6: sun *)
    set_parent (Some 5%nat)
      (object3D (Mesh (SphereGeometry 12 48 48)
                      (MeshStandardMaterial 0x222222%N 0.6 0.0 0xffaa33%N 1.8))) ]
  ++ planetNodes 7 5 mercury ++ planetNodes 11 5 venus
  ++ planetNodes 15 5 earth ++ planetNodes 21 5 mars
  ++ planetNodes 27 5 jupiter ++ planetNodes 33 5 saturn.

(** The node [r] turns by [angle] from the heap [h] to the heap [h']. *)
Definition turnsBy (h h' : list Object3D) (r : nat) (angle : R) : Prop :=
  exists y, rotationY h r = Some y /\ rotationY h' r = Some (y + angle).

(** The state in which the script leaves the program before the first
    tick. *)
Definition start (host : Host) : Program :=
  mkProgram (sceneHeap (random host)) sceneGlobals
            (initialCamera host) (initialRenderer host) 1.

(** A host for the examples: a window of 800 by 600 pixels at pixel ratio
    1.5, a generator that always draws 0.5, and a user who leaves the
    camera alone. *)
Definition exampleHost : Host :=
  mkHost 800 600 1.5 (300, 150) (fun _ => 0.5) (fun _ pose => pose).

(** ** The reference table *)

(** A row of the reference planet table: name, radius, distance, orbital
    speed, spin speed, tilt in degrees if the table gives one, the inner
    and outer radius of the ring if there is one, and for each moon its
    radius, distance and orbital speed. *)
Record TableRow : Type := mkRow {
  row_name : string;
  row_radius : R;
  row_distance : R;
  row_orbitalSpeed : R;
  row_spinSpeed : R;
  row_tilt : option R;
  row_ring : option (R * R);
  row_moons : list (R * R * R)
}.

(** The table as the specification gives it. *)
Definition referenceTable : list TableRow :=
  [ mkRow "mercury" 2 22 47.8 3.0 None None [];
    mkRow "venus" 3 34 35 (- 2.0) None None [];
    mkRow "earth" 3.2 48 29.7 18.0 (Some 23.5) None [(0.9, 6, 12.0)];
    mkRow "mars" 2.4 62 24.1 16.0 None None [(0.6, 4.5, 18.0)];
    mkRow "jupiter" 7.0 95 13.1 19.0 None None [(0.6, 4.5, 18.0)];
    mkRow "saturn" 6.5 115 9.6 22.0 (Some 26.7) (Some (8.0, 12.0)) [] ].

(** The row an argument of [createPlanet] stands for. *)
Definition rowOf (params : Params.t) : TableRow :=
  mkRow (default "planet"%string (Params.name params))
        (default 2 (Params.radius params))
        (default 25 (Params.distance params))
        (default 0.5 (Params.orbitalSpeed params))
        (default 15 (Params.spinSpeed params))
        (Params.tiltDeg params)
        ((fun ring => (Ring.inner ring, Ring.outer ring)) <$> Params.ring params)
        (map (fun m => (Moon.radius m, Moon.distance m, Moon.orbitalSpeed m))
             (default [] (Params.moons params))).

(** [planets.push(createPlanet(params))] for each element of a table in
    turn. *)
Fixpoint pushPlanets (sunGroup : nat) (planets : list Handle.t)
    (table : list Params.t) : M (list Handle.t) :=
  match table with
  | [] => mret planets
  | params :: table' =>
      planets' ← pushPlanet sunGroup planets params;
      pushPlanets sunGroup planets' table'
  end.

(** The moon behind a moon handle has the radius, distance and speed of a
    row entry. *)
Definition moonRealises (h : list Object3D) (planetGroup : nat)
    (mh : MoonHandle.t) (moon : R * R * R) : Prop :=
  exists pivotObj meshRef meshObj mat,
    h !! MoonHandle.pivot mh = Some pivotObj
    /\ parent pivotObj = Some planetGroup
    /\ children pivotObj = [meshRef]
    /\ h !! meshRef = Some meshObj
    /\ drawable meshObj = Mesh (SphereGeometry (fst (fst moon)) 24 24) mat
    /\ position meshObj = Vector3.mk (snd (fst moon)) 0 0
    /\ MoonHandle.speed mh = snd moon.

(** The planet behind a handle is the one a row describes. *)
Definition realises (h : list Object3D) (handle : Handle.t) (row : TableRow) : Prop :=
  exists groupObj meshObj mat,
    h !! Handle.planetGroup handle = Some groupObj
    /\ h !! Handle.mesh handle = Some meshObj
    /\ Handle.name handle = row_name row
    /\ drawable meshObj = Mesh (SphereGeometry (row_radius row) 32 32) mat
    /\ position groupObj = Vector3.mk (row_distance row) 0 0
    /\ Handle.orbitalSpeed handle = row_orbitalSpeed row
    /\ Handle.spinSpeed handle = row_spinSpeed row
    /\ Euler.z (rotation groupObj) = MathUtils.degToRad (default 0 (row_tilt row))
    /\ match row_ring row, Handle.ringMesh handle with
       | Some (inner, outer), Some r =>
           exists ringObj angle ringMat,
             h !! r = Some ringObj
             /\ drawable ringObj
                = Mesh (RotateX angle (RingGeometry inner outer 64)) ringMat
       | None, None => True
       | _, _ => False
       end
    /\ Forall2 (moonRealises h (Handle.planetGroup handle))
               (Handle.moonPivots handle) (row_moons row).

(** ** The clock and the event loop *)

(** [THREE.Clock]; times are in milliseconds, as [performance.now()] gives
    them, and [elapsedTime] is in seconds. *)
Module Clock.

Record t : Type := mk {
  autoStart : bool;
  startTime : R;
  oldTime : R;
  elapsedTime : R;
  running : bool
}.

(** [new THREE.Clock()] *)
Definition create : t := mk true 0 0 0 false.

(** [clock.start()], when [performance.now()] is [now] *)
Definition start (now : R) (c : t) : t := mk (autoStart c) now now 0 true.

(** [clock.getDelta()], when [performance.now()] is [now]: the first call
    starts the clock and returns 0; a later call returns the seconds since
    the call before. *)
Definition getDelta (now : R) (c : t) : R * t :=
  if autoStart c && negb (running c) then (0, start now c)
  else if running c then
    let diff := (now - oldTime c) / 1000 in
    (diff, mk (autoStart c) (startTime c) now (elapsedTime c + diff) (running c))
  else (0, c).

End Clock.

(** The program with its clock. *)
Record Running : Type := mkRunning {
  program : Program;
  clock : Clock.t
}.

(** One call of [animate] when [performance.now()] is [now]:
    [const dt = clock.getDelta()] and the rest of the body. *)
Definition frame (host : Host) (now : R) (st : Running) : option Running :=
  let dt_clock := Clock.getDelta now (clock st) in
  P' ← animate host (fst dt_clock) (program st);
  Some (mkRunning P' (snd dt_clock)).

(** The script run from its first to its last statement: the scene,
    [const clock = new THREE.Clock()], and the call [animate();] that the
    script makes itself, when [performance.now()] is [now].  That call
    starts the clock, renders the first frame and asks for the next one;
    the listener for [resize] is installed after it. *)
Definition boot (host : Host) (now : R) : option Running :=
  P ← main host; frame host now (mkRunning P Clock.create).

(** What the browser delivers to the script after it has started: a display
    refresh, for which [requestAnimationFrame] calls [animate], or a
    [resize] event. *)
Inductive Event : Type :=
  | Refresh (now : R)
  | Resized (w h : R).

(** The reaction of the script to one event. *)
Definition react (host : Host) (e : Event) (st : Running) : option Running :=
  match e with
  | Refresh now => frame host now st
  | Resized w h => Some (mkRunning (onResize w h (program st)) (clock st))
  end.

(** The reactions to the events, one after the other. *)
Fixpoint play (host : Host) (events : list Event) (st : Running) : option Running :=
  match events with
  | [] => Some st
  | e :: events' => st' ← react host e st; play host events' st'
  end.

(** The times of the display refreshes among the events. *)
Definition refreshTimes (events : list Event) : list R :=
  omap (fun e => match e with Refresh now => Some now | Resized _ _ => None end) events.

(** The dimensions of the last resize event, if there is one. *)
Definition lastResize (events : list Event) : option (R * R) :=
  last (omap (fun e => match e with Resized w h => Some (w, h) | Refresh _ => None end)
             events).

(** The seconds from the time [t0] to the last of the times, 0 when there
    is none. *)
Definition elapsed (t0 : R) (times : list R) : R :=
  (default t0 (last times) - t0) / 1000.

(** ** The shape of the scene graph *)

(** The parent and the children of every object: the scene graph without
    what the objects draw and where they are. *)
Definition links (h : list Object3D) : list (option nat * list nat) :=
  map (fun o => (parent o, children o)) h.

(** The two directions of the parent-child relation agree: an object is among
    the children of its parent, each of its children has it as parent, and
    no child is listed twice. *)
Definition consistent (h : list Object3D) : Prop :=
  forall r o, h !! r = Some o ->
    (forall p, parent o = Some p ->
       exists po, h !! p = Some po /\ r ∈ children po)
    /\ (forall c, c ∈ children o ->
          exists co, h !! c = Some co /\ parent co = Some r)
    /\ NoDup (children o).

(** The same, computed on the links. *)
Definition consistentb (l : list (option nat * list nat)) : bool :=
  forallb
    (fun r =>
       match l !! r with
       | None => false
       | Some (par, cs) =>
           match par with
           | None => true
           | Some p =>
               match l !! p with
               | Some (_, pcs) => bool_decide (r ∈ pcs)
               | None => false
               end
           end
           && forallb (fun c =>
                         match l !! c with
                         | Some (Some p', _) => bool_decide (p' = r)
                         | _ => false
                         end) cs
           && bool_decide (NoDup cs)
       end)
    (seq 0 (length l)).

(** The object reached from [r] by going from parent to parent, in at most
    [fuel] steps; [parents] lists the parent of every object. *)
Fixpoint rootOf (fuel : nat) (parents : list (option nat)) (r : nat) : option nat :=
  match fuel with
  | O => None
  | S fuel' =>
      match parents !! r with
      | None => None
      | Some None => Some r
      | Some (Some p) => rootOf fuel' parents p
      end
  end.

(** ** Any table of planets *)

(** How many objects [createPlanet] allocates. *)
Definition planetSize (params : Params.t) : nat :=
  4 + ringSize (Params.ring params) + 2 * length (default [] (Params.moons params)).

(** The handles of the planets of a table, created one after the other on
    a heap of [n] objects. *)
Fixpoint tableHandles (n : nat) (table : list Params.t) : list Handle.t :=
  match table with
  | [] => []
  | params :: table' =>
      planetHandle n params :: tableHandles (n + planetSize params) table'
  end.

(** The heap after the planets of a table have been created. *)
Fixpoint tableHeap (sunGroup : nat) (table : list Params.t)
    (h : list Object3D) : list Object3D :=
  match table with
  | [] => h
  | params :: table' =>
      tableHeap sunGroup table'
                (alter (push_child (length h)) sunGroup h
                 ++ planetNodes (length h) sunGroup params)
  end.

(** The i-th star of the [positions] array. *)
Definition star (positions : list R) (i : nat) : option Vector3.t :=
  match positions !! (3 * i)%nat, positions !! (3 * i + 1)%nat,
        positions !! (3 * i + 2)%nat with
  | Some x, Some y, Some z => Some (Vector3.mk x y z)
  | _, _, _ => None
  end.

(** The sum of the elapsed times of a sequence of ticks. *)
Definition total (dts : list R) : R := foldr Rplus 0 dts.

(** How many objects the planets of a table take. *)
Definition tableSize (table : list Params.t) : nat :=
  foldr (fun params n => (planetSize params + n)%nat) 0%nat table.

(** All the objects a handle refers to. *)
Definition handleRefs (p : Handle.t) : list nat :=
  Handle.orbitPivot p :: Handle.planetGroup p :: Handle.mesh p
  :: option_list (Handle.ringMesh p) ++ map MoonHandle.pivot (Handle.moonPivots p).

(** The camera and the renderer are set for a window of [w] by [h]: the
    aspect, an up-to-date projection, the size of the renderer and of the
    surface; the pixel ratio and the lens are those of the start. *)
Definition viewportIs (host : Host) (w h : R) (P : Program) : Prop :=
  PerspectiveCamera.aspect (camera P) = w / h
  /\ PerspectiveCamera.projectionMatrix (camera P)
     = PerspectiveCamera.projection (camera P)
  /\ PerspectiveCamera.fov (camera P) = 75
  /\ PerspectiveCamera.near (camera P) = 0.1
  /\ PerspectiveCamera.far (camera P) = 2000
  /\ WebGLRenderer.width (renderer P) = w
  /\ WebGLRenderer.height (renderer P) = h
  /\ WebGLRenderer.pixelRatio (renderer P) = Rmin (devicePixelRatio host) 2
  /\ WebGLRenderer.canvasWidth (renderer P) = w * Rmin (devicePixelRatio host) 2
  /\ WebGLRenderer.canvasHeight (renderer P) = h * Rmin (devicePixelRatio host) 2.

(** * Proofs *)

(** ** Running heap computations *)

Section heap_lemmas.
Implicit Types (h H F : Heap) (o : Object3D) (r p c n k : nat).

Lemma bind_run {A B} (m : M A) (f : A -> M B) h a h' :
  m h = Some (a, h') -> (m ≫= f) h = f a h'.
Proof. intros E. unfold mbind, M_bind. by rewrite E. Qed.

Lemma lookup_app_at H F n k : length H = n -> (H ++ F) !! (n + k)%nat = F !! k.
Proof. intros <-. by rewrite lookup_app_r, Nat.add_sub' by lia. Qed.

Lemma alter_app_at (f : Object3D -> Object3D) H F n k :
  length H = n -> alter f (n + k)%nat (H ++ F) = H ++ alter f k F.
Proof. intros <-. apply alter_app_r. Qed.

Lemma modify_run f r h : (r < length h)%nat -> modify f r h = Some (tt, alter f r h).
Proof.
  intros Hr. unfold modify. destruct (lookup_lt_is_Some_2 h r Hr) as [o ->]. done.
Qed.

Lemma modify_at f H F n k :
  length H = n -> (k < length F)%nat ->
  modify f (n + k)%nat (H ++ F) = Some (tt, H ++ alter f k F).
Proof.
  intros Hn Hk. rewrite modify_run by (rewrite length_app; lia).
  by rewrite (alter_app_at _ _ _ _ _ Hn).
Qed.

Lemma new_at o H F n :
  length H = n -> new o (H ++ F) = Some ((n + length F)%nat, H ++ (F ++ [o])).
Proof. intros <-. unfold new. by rewrite length_app, <- app_assoc. Qed.

(** Adding a detached node: nothing to remove first. *)
Lemma add_detached p c h co :
  h !! c = Some co -> parent co = None -> c <> p -> (p < length h)%nat ->
  add p c h = Some (tt, alter (push_child c) p (alter (set_parent (Some p)) c h)).
Proof.
  intros Hc Hpar Hne Hp. unfold add. destruct (decide (c = p)) as [|_]; [done|].
  assert (removeFromParent c h = Some (tt, h)) as E.
  { unfold removeFromParent. erewrite bind_run; [|unfold get; by rewrite Hc].
    by rewrite Hpar. }
  rewrite (bind_run _ _ _ _ _ E).
  erewrite bind_run; [|apply modify_run; eapply lookup_lt_Some; eauto].
  apply modify_run. by rewrite length_alter.
Qed.

Lemma add_at_r H F n p c co :
  length H = n -> F !! c = Some co -> parent co = None -> c <> p ->
  (p < length F)%nat ->
  add (n + p)%nat (n + c)%nat (H ++ F)
  = Some (tt, H ++ alter (push_child (n + c)%nat) p
                         (alter (set_parent (Some (n + p)%nat)) c F)).
Proof.
  intros Hn Hc Hpar Hne Hp.
  erewrite add_detached; eauto.
  - by rewrite !(alter_app_at _ _ _ _ _ Hn).
  - by rewrite (lookup_app_at _ _ _ _ Hn).
  - lia.
  - rewrite length_app. lia.
Qed.

Lemma add_at_l H F n p c co :
  length H = n -> F !! c = Some co -> parent co = None -> (p < n)%nat ->
  add p (n + c)%nat (H ++ F)
  = Some (tt, alter (push_child (n + c)%nat) p H
              ++ alter (set_parent (Some p)) c F).
Proof.
  intros Hn Hc Hpar Hp.
  erewrite add_detached; eauto.
  - rewrite (alter_app_at _ _ _ _ _ Hn). by rewrite alter_app_l by lia.
  - by rewrite (lookup_app_at _ _ _ _ Hn).
  - lia.
  - rewrite length_app. lia.
Qed.
End heap_lemmas.

(** ** What [createPlanet] computes *)

Section factory.
Implicit Types (h H F : list Object3D) (o : Object3D) (n pg sg : nat).

(** One turn of the loop over the moons. *)
Lemma createMoon_run pg acc m h :
  (pg < length h)%nat ->
  createMoon pg acc m h
  = Some (acc ++ moonHandles (length h) [m],
          alter (push_child (length h)) pg h ++ moonNodes pg (length h) [m]).
Proof.
  intros Hpg. unfold createMoon.
  rewrite <- (app_nil_r h) at 1.
  erewrite bind_run; [|by apply new_at].
  erewrite bind_run; [|by eapply add_at_l].
  erewrite bind_run; [|apply new_at; by rewrite length_alter].
  erewrite bind_run;
    [|apply modify_at; [by rewrite length_alter | simpl; lia]].
  erewrite bind_run;
    [|eapply add_at_r;
      [by rewrite length_alter | reflexivity | reflexivity | simpl; lia | simpl; lia]].
  simpl. rewrite Nat.add_0_r. reflexivity.
Qed.

Lemma push_children_nil o : push_children [] o = o.
Proof. destruct o. unfold push_children, set_children. simpl. by rewrite app_nil_r. Qed.

Lemma push_children_cons c cs o :
  push_children cs (push_child c o) = push_children (c :: cs) o.
Proof.
  destruct o. unfold push_children, push_child, set_children. simpl.
  by rewrite <- app_assoc.
Qed.

(** The loop over the moons: two nodes per moon, appended to the heap, and
    the pivots appended to the children of the body group. *)
Lemma createMoons_run moons : forall pg acc h,
  (pg < length h)%nat ->
  createMoons pg acc moons h
  = Some (acc ++ moonHandles (length h) moons,
          alter (push_children (map MoonHandle.pivot (moonHandles (length h) moons))) pg h
          ++ moonNodes pg (length h) moons).
Proof.
  induction moons as [|m moons IH]; intros pg acc h Hpg.
  - simpl. rewrite !app_nil_r.
    rewrite list_alter_id by apply push_children_nil. reflexivity.
  - cbn [createMoons]. erewrite bind_run; [|by apply createMoon_run].
    rewrite IH by (rewrite length_app, length_alter; lia).
    rewrite length_app, length_alter. cbn [moonNodes moonHandles length map].
    rewrite alter_app_l by (rewrite length_alter; lia).
    rewrite list_alter_alter_eq.
    rewrite <- !app_assoc. cbn [app].
    do 2 f_equal. f_equal.
    apply list_alter_ext; [|done]. intros o _. apply push_children_cons.
Qed.

(** one statement of a straight-line block, run on a heap [H ++ F] whose
    tail [F] is known *)
Ltac run_new := erewrite bind_run; [|apply new_at; by rewrite ?length_alter]; simpl.
Ltac run_modify :=
  erewrite bind_run;
    [|apply modify_at; [by rewrite ?length_alter | simpl; lia]]; simpl.
Ltac run_add :=
  erewrite bind_run;
    [|eapply add_at_r;
      [by rewrite ?length_alter | reflexivity | reflexivity
      | simpl; lia | simpl; lia]]; simpl.

(** [createPlanet] succeeds on every heap where [sunGroup] is allocated:
    it returns [planetHandle], makes the orbit pivot the last child of
    [sunGroup] and appends [planetNodes] to the heap. *)
Lemma createPlanet_run sg params h :
  (sg < length h)%nat ->
  createPlanet sg params h
  = Some (planetHandle (length h) params,
          alter (push_child (length h)) sg h ++ planetNodes (length h) sg params).
Proof.
  intros Hsg. unfold createPlanet.
  rewrite <- (app_nil_r h) at 1.
  run_new. run_modify.
  erewrite bind_run; [|by eapply add_at_l]. simpl.
  run_new. run_add. run_new. run_modify. run_modify. run_add.
  run_new. run_modify. run_modify. run_add.
  rewrite Nat.add_0_r.
  set (H := alter (push_child (length h)) sg h).
  assert (length H = length h) as HH by apply length_alter.
  unfold planetNodes, planetHandle.
  destruct (Params.ring params) as [ring|]; cbn [createRing ringSize option_list].
  - erewrite bind_run;
      [|erewrite bind_run; [|by apply new_at]; simpl;
        erewrite bind_run;
          [|eapply add_at_r; [done | reflexivity | reflexivity | simpl; lia | simpl; lia]];
        reflexivity].
    erewrite bind_run;
      [|apply createMoons_run; rewrite length_app, HH; simpl; lia].
    replace (length (H ++ _)) with (length h + 4 + 1)%nat
      by (rewrite length_app, HH; simpl; lia).
    rewrite (alter_app_at _ _ _ _ _ HH).
    unfold mret, M_ret. rewrite <- app_assoc. reflexivity.
  - erewrite bind_run; [|reflexivity].
    erewrite bind_run;
      [|apply createMoons_run; rewrite length_app, HH; simpl; lia].
    replace (length (H ++ _)) with (length h + 4 + 0)%nat
      by (rewrite length_app, HH; simpl; lia).
    rewrite (alter_app_at _ _ _ _ _ HH).
    unfold mret, M_ret. rewrite <- app_assoc. reflexivity.
Qed.

(** The statements before the loop over the moons. *)
Lemma createPlanetBody_run sg params h :
  (sg < length h)%nat ->
  createPlanetBody sg params h
  = Some ((length h, (length h + 2)%nat, (length h + 3)%nat,
           Handle.ringMesh (planetHandle (length h) params)),
          alter (push_child (length h)) sg h ++ bodyNodes (length h) sg params).
Proof.
  intros Hsg. unfold createPlanetBody.
  rewrite <- (app_nil_r h) at 1.
  run_new. run_modify.
  erewrite bind_run; [|by eapply add_at_l]. simpl.
  run_new. run_add. run_new. run_modify. run_modify. run_add.
  run_new. run_modify. run_modify. run_add.
  rewrite Nat.add_0_r.
  set (H := alter (push_child (length h)) sg h).
  assert (length H = length h) as HH by apply length_alter.
  unfold bodyNodes, planetHandle.
  destruct (Params.ring params) as [ring|]; cbn [createRing Handle.ringMesh].
  - erewrite bind_run;
      [|erewrite bind_run; [|by apply new_at]; simpl;
        erewrite bind_run;
          [|eapply add_at_r; [done | reflexivity | reflexivity | simpl; lia | simpl; lia]];
        reflexivity].
    reflexivity.
  - erewrite bind_run; [|reflexivity]. reflexivity.
Qed.

Lemma length_bodyNodes n sg params :
  length (bodyNodes n sg params) = (4 + ringSize (Params.ring params))%nat.
Proof. unfold bodyNodes. by destruct (Params.ring params). Qed.

(** A call with an object: the statements before the loop run, then the
    loop throws when [moons] is [null], and runs to the end otherwise, as
    [createPlanet] does on the record of the object. *)
Lemma callCreatePlanet_run sg (lit : Literal.t) h :
  (sg < length h)%nat ->
  callCreatePlanet sg (Js.value lit) h
  = match Literal.moons lit with
    | Js.null =>
        Thrown (alter (push_child (length h)) sg h
                ++ bodyNodes (length h) sg (Literal.params lit))
    | Js.undefined | Js.value _ =>
        Returned (planetHandle (length h) (Literal.params lit))
                 (alter (push_child (length h)) sg h
                  ++ planetNodes (length h) sg (Literal.params lit))
    end.
Proof.
  intros Hsg. unfold callCreatePlanet. rewrite createPlanetBody_run by done.
  set (H := alter (push_child (length h)) sg h).
  assert (length H = length h) as HH by apply length_alter.
  assert (forall params,
          match createMoons (length h + 2) [] (default [] (Params.moons params))
                            (H ++ bodyNodes (length h) sg params) with
          | Some (moonPivots, h2) =>
              Returned (Handle.mk (default "planet"%string (Params.name params))
                                  (length h) (length h + 2) (length h + 3)
                                  (Handle.ringMesh (planetHandle (length h) params))
                                  (default 15 (Params.spinSpeed params))
                                  (default 0.5 (Params.orbitalSpeed params))
                                  moonPivots) h2
          | None => Stuck
          end
          = Returned (planetHandle (length h) params)
                     (H ++ planetNodes (length h) sg params)) as Hloop.
  { intros params.
    rewrite createMoons_run
      by (rewrite length_app, HH, length_bodyNodes; lia).
    rewrite length_app, HH, length_bodyNodes.
    replace (length h + (4 + ringSize (Params.ring params)))%nat
      with (length h + 4 + ringSize (Params.ring params))%nat by lia.
    rewrite (alter_app_at _ _ _ _ _ HH), <- app_assoc.
    unfold planetNodes, bodyNodes, planetHandle.
    cbn [Handle.ringMesh Handle.moonPivots].
    destruct (Params.ring params); reflexivity. }
  destruct (Literal.moons lit); [apply Hloop | done | apply Hloop].
Qed.

End factory.

(** ** Looking up what [createPlanet] has allocated *)

Section allocated.
Implicit Types (h : list Object3D) (n pg sg base i j k : nat) (ms : list Moon.t).

Lemma planetNodes_lookup_at sg params h k :
  (alter (push_child (length h)) sg h ++ planetNodes (length h) sg params)
    !! (length h + k)%nat
  = planetNodes (length h) sg params !! k.
Proof. apply lookup_app_at, length_alter. Qed.

Lemma moonHandles_speed ms : forall base,
  map MoonHandle.speed (moonHandles base ms) = map Moon.orbitalSpeed ms.
Proof. induction ms as [|m ms IH]; intros base; cbn; [done|]. by rewrite IH. Qed.

(** The i-th moon: its handle, its pivot and its mesh. *)
Lemma moon_lookup pg ms : forall base i m,
  ms !! i = Some m ->
  moonHandles base ms !! i
    = Some (MoonHandle.mk (base + 2 * i) (Moon.orbitalSpeed m))
  /\ moonNodes pg base ms !! (2 * i)%nat = Some (moonPivotNode pg (base + 2 * i))
  /\ moonNodes pg base ms !! (2 * i + 1)%nat = Some (moonMeshNode (base + 2 * i) m).
Proof.
  induction ms as [|m0 ms IH]; intros base i m Hi; [done|].
  destruct i as [|i].
  - injection Hi as ->. cbn. by rewrite Nat.add_0_r.
  - cbn in Hi. destruct (IH (base + 2)%nat i m Hi) as (H1 & H2 & H3).
    replace (base + 2 * S i)%nat with (base + 2 + 2 * i)%nat by lia.
    replace (2 * S i)%nat with (S (S (2 * i))) by lia.
    cbn [moonHandles moonNodes lookup list_lookup Nat.add].
    split_and!; [exact H1 | exact H2 | exact H3].
Qed.

(** The nodes of the moons come after the four nodes of the planet and
    the ring. *)
Lemma planetNodes_moon n sg params j :
  planetNodes n sg params !! (4 + ringSize (Params.ring params) + j)%nat
  = moonNodes (n + 2) (n + 4 + ringSize (Params.ring params))
              (default [] (Params.moons params)) !! j.
Proof.
  unfold planetNodes. destruct (Params.ring params); reflexivity.
Qed.

End allocated.

(** ** The orbit path *)

Section orbit_path.

Lemma two_PI_large : 1 < 2 * PI.
Proof. pose proof PI2_1. lra. Qed.

Lemma EPSILON_small : EllipseCurve.EPSILON < 1.
Proof.
  unfold EllipseCurve.EPSILON.
  assert (1 < 2 ^ 52) as H by (apply Rlt_pow_R1; [lra|lia]).
  rewrite <- Rinv_1. apply Rinv_lt_contravar; lra.
Qed.

(** For the full circle of the script, counter-clockwise and not rotated,
    [getPoint] takes none of its special branches. *)
Lemma getPoint_circle (D u : R) :
  EllipseCurve.getPoint (EllipseCurve.mk 0 0 D D 0 (2 * PI) false 0) u
  = Vector2.mk (D * cos (u * (2 * PI))) (D * sin (u * (2 * PI))).
Proof.
  pose proof two_PI_large. pose proof EPSILON_small.
  unfold EllipseCurve.getPoint. cbn.
  replace (2 * PI - 0) with (2 * PI) by lra.
  destruct (Rlt_dec (Rabs (2 * PI)) EllipseCurve.EPSILON) as [Habs|_].
  { rewrite Rabs_pos_eq in Habs by lra. lra. }
  destruct (Rlt_dec (2 * PI) EllipseCurve.EPSILON) as [Hlt|_]; [lra|].
  destruct (Req_dec_T 0 0) as [_|Hne]; [|done].
  f_equal; rewrite !Rplus_0_l; reflexivity.
Qed.

Lemma orbitPoints_eq (D : R) :
  orbitPoints D
  = map (fun d : nat =>
           Vector3.mk (D * cos (INR d / INR 128 * (2 * PI))) 0
                      (D * sin (INR d / INR 128 * (2 * PI))))
        (seq 0 129).
Proof.
  unfold orbitPoints, EllipseCurve.getPoints. rewrite map_map.
  apply map_ext. intros d. by rewrite getPoint_circle.
Qed.

Lemma length_orbitPoints (D : R) : length (orbitPoints D) = 129%nat.
Proof. rewrite orbitPoints_eq. by rewrite length_map, length_seq. Qed.

(** Every vertex is in the plane y = 0, at distance [|D|] of the origin. *)
Lemma orbitPoints_on_circle (D : R) (v : Vector3.t) :
  v ∈ orbitPoints D -> Vector3.y v = 0 /\ Vector3.length v = Rabs D.
Proof.
  rewrite orbitPoints_eq, list_elem_of_fmap. intros (d & -> & _).
  split; [done|]. unfold Vector3.length. cbn [Vector3.x Vector3.y Vector3.z].
  set (a := INR d / INR 128 * (2 * PI)).
  replace (D * cos a * (D * cos a) + 0 * 0 + D * sin a * (D * sin a))
    with (Rsqr D * (Rsqr (sin a) + Rsqr (cos a))) by (unfold Rsqr; ring).
  rewrite sin2_cos2, Rmult_1_r. apply sqrt_Rsqr_abs.
Qed.

Lemma head_orbitPoints (D : R) : head (orbitPoints D) = Some (Vector3.mk D 0 0).
Proof.
  rewrite orbitPoints_eq. cbn [seq map head]. do 2 f_equal.
  - replace (INR 0 / INR 128 * (2 * PI)) with 0 by (cbn [INR]; lra).
    rewrite cos_0. lra.
  - replace (INR 0 / INR 128 * (2 * PI)) with 0 by (cbn [INR]; lra).
    rewrite sin_0. lra.
Qed.

Lemma last_orbitPoints (D : R) : last (orbitPoints D) = Some (Vector3.mk D 0 0).
Proof.
  rewrite orbitPoints_eq, fmap_last.
  replace (last (seq 0 129)) with (Some 128%nat) by reflexivity.
  cbn [fmap option_fmap option_map].
  assert (INR 128 <> 0) as Hne by (apply not_0_INR; lia).
  replace (INR 128 / INR 128 * (2 * PI)) with (2 * PI) by (field; done).
  rewrite cos_2PI, sin_2PI. do 2 f_equal; lra.
Qed.

End orbit_path.

(** ** One tick *)

Section tick.
Implicit Types (h : list Object3D) (o : Object3D) (r : nat) (dt : R)
  (l : list (nat * R)) (g : Globals) (p : Handle.t).

Lemma bind_inv {A B} (m : M A) (f : A -> M B) h b h'' :
  (m ≫= f) h = Some (b, h'') ->
  exists a h', m h = Some (a, h') /\ f a h' = Some (b, h'').
Proof.
  unfold mbind, M_bind. destruct (m h) as [[a h']|]; [|done]. eauto.
Qed.

Lemma modify_inv f r h u h' :
  modify f r h = Some (u, h') -> (r < length h)%nat /\ h' = alter f r h.
Proof.
  unfold modify. destruct (h !! r) eqn:E; [|done].
  intros [= _ <-]. split; [by eapply lookup_lt_Some|done].
Qed.

Lemma turnAll_cons dt r s l h :
  turnAll dt ((r, s) :: l) h
  = turnAll dt l (alter (add_rotation_y (MathUtils.degToRad s * dt)) r h).
Proof. reflexivity. Qed.

Lemma turnAll_app dt l1 l2 h :
  turnAll dt (l1 ++ l2) h = turnAll dt l2 (turnAll dt l1 h).
Proof. apply foldl_app. Qed.

Lemma length_turnAll dt l : forall h, length (turnAll dt l h) = length h.
Proof.
  induction l as [|[r s] l IH]; intros h; [done|].
  by rewrite turnAll_cons, IH, length_alter.
Qed.

(** The loop over the moons of a planet. *)
Lemma animateMoons_run dt (ms : list MoonHandle.t) : forall h,
  Forall (fun m => (MoonHandle.pivot m < length h)%nat) ms ->
  forEach (fun m => modify (add_rotation_y (MathUtils.degToRad (MoonHandle.speed m) * dt))
                           (MoonHandle.pivot m)) ms h
  = Some (tt, turnAll dt (map (fun m => (MoonHandle.pivot m, MoonHandle.speed m)) ms) h).
Proof.
  induction ms as [|m ms IH]; intros h Hv; [done|].
  inversion_clear Hv as [|? ? Hm Hms]. cbn [forEach].
  erewrite bind_run; [|by apply modify_run].
  rewrite IH; [done|]. by rewrite length_alter.
Qed.

Lemma animatePlanet_run dt p h :
  Forall (fun r => (r < length h)%nat) (map fst (planetSpeeds p)) ->
  animatePlanet dt p h = Some (tt, turnAll dt (planetSpeeds p) h).
Proof.
  unfold planetSpeeds. cbn [map fst]. rewrite !Forall_cons.
  intros (Hp & Hm & Hms). unfold animatePlanet.
  erewrite bind_run; [|by apply modify_run].
  erewrite bind_run; [|apply modify_run; by rewrite length_alter].
  rewrite animateMoons_run; [done|].
  rewrite !length_alter. rewrite map_map in Hms. by apply Forall_map in Hms.
Qed.

Lemma animatePlanets_run dt (ps : list Handle.t) : forall h,
  Forall (fun r => (r < length h)%nat) (map fst (flat_map planetSpeeds ps)) ->
  forEach (animatePlanet dt) ps h = Some (tt, turnAll dt (flat_map planetSpeeds ps) h).
Proof.
  induction ps as [|p ps IH]; intros h Hv; [done|].
  cbn [flat_map] in *. rewrite map_app, Forall_app in Hv. destruct Hv as [Hp Hps].
  cbn [forEach]. erewrite bind_run; [|by apply animatePlanet_run].
  rewrite IH; [by rewrite turnAll_app|]. by rewrite length_turnAll.
Qed.

(** When every reference of the handles is allocated, the rotation updates
    succeed, and they are the updates of [speeds], one after the other. *)
Lemma updateRotations_run g dt h :
  Forall (fun r => (r < length h)%nat) (animated g) ->
  updateRotations g dt h = Some (tt, turnAll dt (speeds g) h).
Proof.
  unfold animated, speeds. cbn [map fst]. rewrite Forall_cons. intros [Hs Hps].
  unfold updateRotations.
  erewrite bind_run; [|by apply modify_run].
  rewrite animatePlanets_run; [done|]. by rewrite length_alter.
Qed.

(** Conversely the updates only succeed on allocated references. *)
Lemma animateMoons_inv dt (ms : list MoonHandle.t) : forall h u h',
  forEach (fun m => modify (add_rotation_y (MathUtils.degToRad (MoonHandle.speed m) * dt))
                           (MoonHandle.pivot m)) ms h = Some (u, h') ->
  Forall (fun m => (MoonHandle.pivot m < length h)%nat) ms.
Proof.
  induction ms as [|m ms IH]; intros h u h' E; [constructor|].
  cbn [forEach] in E. apply bind_inv in E as (? & h1 & E1 & E2).
  apply modify_inv in E1 as [Hm ->]. constructor; [done|].
  apply IH in E2. by rewrite length_alter in E2.
Qed.

Lemma animatePlanet_inv dt p h u h' :
  animatePlanet dt p h = Some (u, h') ->
  Forall (fun r => (r < length h)%nat) (map fst (planetSpeeds p)).
Proof.
  unfold animatePlanet. intros E.
  apply bind_inv in E as (? & h1 & E1 & E).
  apply bind_inv in E as (? & h2 & E2 & E).
  apply modify_inv in E1 as [H1 ->]. apply modify_inv in E2 as [H2 ->].
  apply animateMoons_inv in E. rewrite !length_alter in *.
  unfold planetSpeeds. cbn [map fst]. rewrite !Forall_cons. split_and!; [done..|].
  rewrite map_map. by apply Forall_map.
Qed.

Lemma animatePlanets_inv dt (ps : list Handle.t) : forall h u h',
  forEach (animatePlanet dt) ps h = Some (u, h') ->
  Forall (fun r => (r < length h)%nat) (map fst (flat_map planetSpeeds ps)).
Proof.
  induction ps as [|p ps IH]; intros h u h' E; [constructor|].
  cbn [forEach] in E. apply bind_inv in E as ([] & h1 & E1 & E2).
  cbn [flat_map]. rewrite map_app, Forall_app.
  pose proof (animatePlanet_inv _ _ _ _ _ E1) as Hp. split; [done|].
  rewrite (animatePlanet_run _ _ _ Hp) in E1. injection E1 as E1. subst h1.
  apply IH in E2. by rewrite length_turnAll, ?length_alter in E2.
Qed.

Lemma updateRotations_inv g dt h u h' :
  updateRotations g dt h = Some (u, h') ->
  Forall (fun r => (r < length h)%nat) (animated g) /\ h' = turnAll dt (speeds g) h.
Proof.
  intros E. assert (Forall (fun r => (r < length h)%nat) (animated g)) as Hv.
  { unfold updateRotations in E. apply bind_inv in E as (? & h1 & E1 & E2).
    apply modify_inv in E1 as [Hs ->]. apply animatePlanets_inv in E2.
    rewrite length_alter in E2. unfold animated, speeds. cbn [map fst].
    by constructor. }
  split; [done|]. rewrite (updateRotations_run _ _ _ Hv) in E. by injection E.
Qed.

(** *** The effect of the updates on one node *)

Lemma add_rotation_y_0 o : add_rotation_y 0 o = o.
Proof.
  destruct o as [? [] ? ? ? ? ? ?]. unfold add_rotation_y, set_rotation. cbn.
  by rewrite Rplus_0_r.
Qed.

Lemma add_rotation_y_add a b o :
  add_rotation_y b (add_rotation_y a o) = add_rotation_y (a + b) o.
Proof.
  unfold add_rotation_y, set_rotation. cbn. by rewrite Rplus_assoc.
Qed.

(** After the updates, a node is the node it was, turned by the sum of the
    angles of the updates that refer to it. *)
Lemma turnAll_lookup dt l r : forall h,
  turnAll dt l h !! r = add_rotation_y (angleOf dt l r) <$> h !! r.
Proof.
  induction l as [|[r' s] l IH]; intros h.
  - cbn. destruct (h !! r) as [o|]; cbn; [|done]. by rewrite add_rotation_y_0.
  - rewrite turnAll_cons, IH. cbn [angleOf fst snd].
    rewrite list_lookup_alter. destruct (decide (r' = r)) as [->|Hne].
    + destruct (h !! r) as [o|]; cbn; [|done]. by rewrite add_rotation_y_add.
    + by rewrite Rplus_0_l.
Qed.

Lemma angleOf_notin dt l r : r ∉ map fst l -> angleOf dt l r = 0.
Proof.
  induction l as [|[r' s] l IH]; [done|]. cbn [map fst angleOf snd].
  rewrite not_elem_of_cons. intros [Hne Hnotin].
  destruct (decide (r' = r)); [congruence|]. rewrite IH by done. lra.
Qed.

Lemma angleOf_NoDup dt l r s :
  NoDup (map fst l) -> (r, s) ∈ l -> angleOf dt l r = MathUtils.degToRad s * dt.
Proof.
  induction l as [|[r' s'] l IH]; [by rewrite elem_of_nil|].
  cbn [map fst angleOf snd]. rewrite NoDup_cons, elem_of_cons.
  intros [Hnotin Hnd] [[= -> ->]|Hin].
  - rewrite decide_True by done. rewrite angleOf_notin by done. lra.
  - assert (r' <> r) as Hne.
    { intros ->. apply Hnotin. apply list_elem_of_fmap. by exists (r, s). }
    rewrite decide_False by done. rewrite IH by done. lra.
Qed.

Lemma angleOf_plus t1 t2 l r :
  angleOf (t1 + t2) l r = angleOf t1 l r + angleOf t2 l r.
Proof.
  induction l as [|[r' s] l IH]; cbn [angleOf fst snd]; [lra|].
  rewrite IH. destruct (decide (r' = r)); lra.
Qed.

Lemma rotationY_turnAll dt l h r y :
  rotationY h r = Some y ->
  rotationY (turnAll dt l h) r = Some (y + angleOf dt l r).
Proof.
  unfold rotationY. rewrite turnAll_lookup.
  destruct (h !! r) as [o|]; [|done]. cbn. by intros [= <-].
Qed.

End tick.

(** ** The scene the script builds *)

#[local] Opaque starPositions orbitPoints PI Q2R IZR.

(** The top-level statements of the script succeed, whatever the random
    numbers, and build [sceneHeap]. *)
Lemma buildScene_run random :
  buildScene random [] = Some (sceneGlobals, sceneHeap random).
Proof. lazy. reflexivity. Qed.

(** The script always succeeds, and leaves the program in [start]. *)
Lemma main_run host : main host = Some (start host).
Proof. unfold main. by rewrite buildScene_run. Qed.

Lemma main_inv host P :
  main host = Some P ->
  globals P = sceneGlobals /\ heap P = sceneHeap (random host).
Proof. rewrite main_run. by intros [= <-]. Qed.

Lemma reachable_start host : reachable host (start host).
Proof. apply reachable_main, main_run. Qed.

(** In the scene the script builds no node is rotated about y. *)
Lemma sceneHeap_rotationY random r y :
  rotationY (sceneHeap random) r = Some y -> y = 0.
Proof.
  assert (Forall (fun o => Euler.y (rotation o) = 0) (sceneHeap random)) as Hall
    by (repeat constructor).
  unfold rotationY. destruct (sceneHeap random !! r) as [o|] eqn:Ho; [|done].
  intros [= <-]. by eapply (Forall_lookup_1 _ _ _ _ Hall).
Qed.

Lemma animated_sceneGlobals :
  animated sceneGlobals
  = [6; 7; 10; 11; 14; 15; 18; 19; 21; 24; 25; 27; 30; 31; 33; 36]%nat.
Proof. reflexivity. Qed.

Lemma length_sceneHeap random : length (sceneHeap random) = 38%nat.
Proof. reflexivity. Qed.

Lemma animated_valid :
  Forall (fun r => (r < 38)%nat) (animated sceneGlobals).
Proof. rewrite animated_sceneGlobals. repeat constructor. Qed.

Lemma animated_NoDup : NoDup (animated sceneGlobals).
Proof. rewrite animated_sceneGlobals. by apply (bool_decide_unpack _). Qed.

(** The sun light is added to the scene first and to the sun group later:
    [add] has taken it out of the children of the scene. *)
Example sunLight_reparented random :
  (parent <$> sceneHeap random !! 3%nat) = Some (Some 5%nat)
  /\ (children <$> sceneHeap random !! 0%nat) = Some [1; 2; 4; 5]%nat
  /\ (children <$> sceneHeap random !! 5%nat)
     = Some [6; 3; 7; 11; 15; 21; 27; 33]%nat.
Proof. split_and!; reflexivity. Qed.

(** Adding a node that has a parent moves it. *)
Example add_moves_child :
  (add 1 2 ;; add 0 2) [object3D Group; object3D Group; object3D Group]
  = Some (tt, [set_children [2%nat] (object3D Group);
               object3D Group;
               set_parent (Some 0%nat) (object3D Group)]).
Proof. reflexivity. Qed.

(** An object is not added to itself. *)
Example add_self : add 0 0 [object3D Group] = Some (tt, [object3D Group]).
Proof. reflexivity. Qed.

(** A reference that is not allocated makes the computation fail. *)
Example add_dangling : add 0 1 [object3D Group] = None.
Proof. reflexivity. Qed.

Example degToRad_180 : MathUtils.degToRad 180 = PI.
Proof. unfold MathUtils.degToRad, MathUtils.DEG2RAD. lra. Qed.

(** The references of the six planets and of their moons. *)
Example speeds_sceneGlobals :
  map (fun p => (Handle.orbitPivot p, Handle.mesh p, Handle.ringMesh p,
                 map MoonHandle.pivot (Handle.moonPivots p)))
      (planets sceneGlobals)
  = [ (7, 10, None, []); (11, 14, None, []); (15, 18, None, [19]);
      (21, 24, None, [25]); (27, 30, None, [31]); (33, 36, Some 37, []) ]%nat.
Proof. reflexivity. Qed.

(** ** The states of the program *)

Lemma animate_inv host dt P P' :
  animate host dt P = Some P' ->
  Forall (fun r => (r < length (heap P))%nat) (animated (globals P))
  /\ globals P' = globals P
  /\ heap P' = turnAll dt (speeds (globals P)) (heap P).
Proof.
  unfold animate. intros E.
  destruct (updateRotations (globals P) dt (heap P)) as [[u h']|] eqn:Eu; [|done].
  apply updateRotations_inv in Eu as [Hv ->]. cbn in E. by injection E as <-.
Qed.

Lemma animate_run host dt P :
  Forall (fun r => (r < length (heap P))%nat) (animated (globals P)) ->
  exists P', animate host dt P = Some P'.
Proof.
  intros Hv. unfold animate. rewrite (updateRotations_run _ _ _ Hv). cbn. eauto.
Qed.

(** Every state of the program has the module-level constants of the
    script and a heap of the 38 objects the script allocates. *)
Lemma reachable_inv host P :
  reachable host P -> globals P = sceneGlobals /\ length (heap P) = 38%nat.
Proof.
  induction 1 as [P E|dt P P' _ [IHg IHl] E|w h P _ IH].
  - apply main_inv in E as [-> ->]. by rewrite length_sceneHeap.
  - apply animate_inv in E as (_ & -> & ->). by rewrite length_turnAll.
  - done.
Qed.

Lemma reachable_valid host P :
  reachable host P ->
  Forall (fun r => (r < length (heap P))%nat) (animated (globals P)).
Proof.
  intros [-> ->]%reachable_inv. apply animated_valid.
Qed.

Lemma reachable_NoDup host P : reachable host P -> NoDup (animated (globals P)).
Proof. intros [-> _]%reachable_inv. apply animated_NoDup. Qed.

(** *** The updates that belong to a planet handle *)

Lemma planetSpeeds_speeds g p rs :
  p ∈ planets g -> rs ∈ planetSpeeds p -> rs ∈ speeds g.
Proof.
  intros Hp Hrs. unfold speeds. apply elem_of_cons. right.
  apply list_elem_of_In, in_flat_map. exists p.
  split; by apply list_elem_of_In.
Qed.

Lemma orbitPivot_speeds g p :
  p ∈ planets g -> (Handle.orbitPivot p, Handle.orbitalSpeed p) ∈ speeds g.
Proof. intros Hp. eapply planetSpeeds_speeds; [done|]. apply elem_of_cons. by left. Qed.

Lemma mesh_speeds g p :
  p ∈ planets g -> (Handle.mesh p, Handle.spinSpeed p) ∈ speeds g.
Proof.
  intros Hp. eapply planetSpeeds_speeds; [done|].
  unfold planetSpeeds. rewrite !elem_of_cons. auto.
Qed.

Lemma moonPivot_speeds g p m :
  p ∈ planets g -> m ∈ Handle.moonPivots p ->
  (MoonHandle.pivot m, MoonHandle.speed m) ∈ speeds g.
Proof.
  intros Hp Hm. eapply planetSpeeds_speeds; [done|].
  unfold planetSpeeds. rewrite !elem_of_cons. right. right.
  apply list_elem_of_fmap. by exists m.
Qed.

(** A node that [animate] writes to once turns by the angle of that one
    update. *)
Lemma turnsBy_speeds dt g h r s :
  NoDup (animated g) -> Forall (fun r => (r < length h)%nat) (animated g) ->
  (r, s) ∈ speeds g ->
  turnsBy h (turnAll dt (speeds g) h) r (MathUtils.degToRad s * dt).
Proof.
  intros Hnd Hv Hin.
  assert (r < length h)%nat as Hr.
  { rewrite Forall_forall in Hv. apply Hv. unfold animated.
    apply list_elem_of_fmap. by exists (r, s). }
  destruct (lookup_lt_is_Some_2 _ _ Hr) as [o Ho].
  exists (Euler.y (rotation o)). assert (rotationY h r = Some (Euler.y (rotation o))) as Hy.
  { unfold rotationY. by rewrite Ho. }
  split; [done|]. rewrite (rotationY_turnAll _ _ _ _ _ Hy).
  by rewrite (angleOf_NoDup _ _ _ _ Hnd Hin).
Qed.

(** A node that [animate] does not write to is left as it is. *)
Lemma turnAll_lookup_notin dt g h r :
  r ∉ animated g -> turnAll dt (speeds g) h !! r = h !! r.
Proof.
  intros Hr. rewrite turnAll_lookup, angleOf_notin by done.
  destruct (h !! r) as [o|]; cbn; [|done]. by rewrite add_rotation_y_0.
Qed.

(** The references [animate] writes to are the sun, and the orbit pivot,
    the mesh and the moon pivots of the planets. *)
Lemma elem_of_planetSpeeds p r :
  r ∈ map fst (planetSpeeds p) <->
  r = Handle.orbitPivot p \/ r = Handle.mesh p
  \/ exists m, m ∈ Handle.moonPivots p /\ r = MoonHandle.pivot m.
Proof.
  unfold planetSpeeds. cbn [map fst].
  rewrite !elem_of_cons, map_map, list_elem_of_fmap.
  split; (intros [->| [->| (m & ? & ?)]]; eauto).
Qed.

Lemma elem_of_animated g r :
  r ∈ animated g <->
  r = sun g
  \/ exists p, p ∈ planets g
      /\ (r = Handle.orbitPivot p \/ r = Handle.mesh p
          \/ exists m, m ∈ Handle.moonPivots p /\ r = MoonHandle.pivot m).
Proof.
  unfold animated, speeds. cbn [map fst]. rewrite elem_of_cons.
  apply or_iff_compat_l. rewrite list_elem_of_fmap. split.
  - intros (rs & -> & Hrs). apply list_elem_of_In, in_flat_map in Hrs as (p & Hp & Hrs).
    exists p. apply list_elem_of_In in Hp. apply list_elem_of_In in Hrs.
    split; [done|]. apply elem_of_planetSpeeds, list_elem_of_fmap. eauto.
  - intros (p & Hp & Hr). apply elem_of_planetSpeeds, list_elem_of_fmap in Hr as (rs & -> & Hrs).
    exists rs. split; [done|]. apply list_elem_of_In, in_flat_map.
    exists p. split; by apply list_elem_of_In.
Qed.

(** Any number of ticks succeeds from a state of the program, and leaves
    the nodes [animate] does not write to as they are. *)
Lemma run_reachable host dts : forall P,
  reachable host P ->
  exists P', run host dts P = Some P' /\ reachable host P'
    /\ forall r, r ∉ animated sceneGlobals -> heap P' !! r = heap P !! r.
Proof.
  induction dts as [|dt dts IH]; intros P HP.
  - exists P. by split_and!.
  - destruct (animate_run host dt P (reachable_valid _ _ HP)) as [P1 E1].
    assert (reachable host P1) as HP1 by (by eapply reachable_animate).
    destruct (IH P1 HP1) as (P' & E' & HP' & Hfr).
    exists P'. cbn [run]. rewrite E1. cbn. split_and!; [done..|].
    intros r Hr. rewrite Hfr by done.
    apply animate_inv in E1 as (_ & _ & ->).
    apply reachable_inv in HP as [Hg _]. rewrite Hg. by apply turnAll_lookup_notin.
Qed.

(** * The claims *)

(** ** The animation driver *)

(** C1.  In every state of the program a tick with elapsed time [dt]
    succeeds; it turns the sun mesh by [degToRad(2.0) * dt] about y, and
    for every planet handle it turns the orbit pivot by
    [degToRad(orbitalSpeed) * dt], the body mesh by
    [degToRad(spinSpeed) * dt] (so a negative spin speed makes the angle
    decrease when time advances) and every moon pivot by
    [degToRad(speed) * dt].  In the scene the script builds, where every
    rotation about y is zero, a tick with [dt = 1.0] leaves the orbit pivot
    of earth, the third planet, at [degToRad(29.7)], its mesh at
    [degToRad(18.0)] and its first moon pivot at [degToRad(12.0)]. *)
Theorem animate_increments host P dt :
  reachable host P ->
  exists P',
    animate host dt P = Some P'
    /\ turnsBy (heap P) (heap P') (sun (globals P)) (MathUtils.degToRad 2.0 * dt)
    /\ (forall p, p ∈ planets (globals P) ->
          turnsBy (heap P) (heap P') (Handle.orbitPivot p)
                  (MathUtils.degToRad (Handle.orbitalSpeed p) * dt)
          /\ turnsBy (heap P) (heap P') (Handle.mesh p)
                     (MathUtils.degToRad (Handle.spinSpeed p) * dt)
          /\ (Handle.spinSpeed p < 0 -> 0 < dt ->
              MathUtils.degToRad (Handle.spinSpeed p) * dt < 0)
          /\ (forall m, m ∈ Handle.moonPivots p ->
                turnsBy (heap P) (heap P') (MoonHandle.pivot m)
                        (MathUtils.degToRad (MoonHandle.speed m) * dt)))
    /\ (main host = Some P -> dt = 1.0 ->
        (forall r y, rotationY (heap P) r = Some y -> y = 0)
        /\ exists e m,
          planets (globals P) !! 2%nat = Some e
          /\ Handle.name e = "earth"%string
          /\ Handle.moonPivots e !! 0%nat = Some m
          /\ rotationY (heap P') (Handle.orbitPivot e) = Some (MathUtils.degToRad 29.7)
          /\ rotationY (heap P') (Handle.mesh e) = Some (MathUtils.degToRad 18.0)
          /\ rotationY (heap P') (MoonHandle.pivot m) = Some (MathUtils.degToRad 12.0)).
Proof.
  intros HP.
  pose proof (reachable_valid _ _ HP) as Hv.
  pose proof (reachable_NoDup _ _ HP) as Hnd.
  destruct (animate_run host dt P Hv) as [P' E]. exists P'. split; [done|].
  apply animate_inv in E as (_ & Hg & ->).
  assert (forall r s, (r, s) ∈ speeds (globals P) ->
            turnsBy (heap P) (turnAll dt (speeds (globals P)) (heap P)) r
                    (MathUtils.degToRad s * dt)) as Hturn
    by (intros r s; by apply turnsBy_speeds).
  split_and!.
  - apply Hturn. unfold speeds. apply elem_of_cons. by left.
  - intros p Hp. split_and!.
    + by apply Hturn, orbitPivot_speeds.
    + by apply Hturn, mesh_speeds.
    + intros Hneg Hdt. unfold MathUtils.degToRad, MathUtils.DEG2RAD.
      pose proof PI_RGT_0.
      assert (0 < - Handle.spinSpeed p * (PI / 180)) by (apply Rmult_lt_0_compat; lra).
      assert (0 < - Handle.spinSpeed p * (PI / 180) * dt) by (by apply Rmult_lt_0_compat).
      lra.
    + intros m Hm. by apply Hturn, (moonPivot_speeds _ p).
  - intros Emain ->. apply main_inv in Emain as [Eg Eh].
    rewrite Eg, Eh in *. clear Eg Eh.
    split; [apply sceneHeap_rotationY|].
    exists (planetHandle 15 earth), (MoonHandle.mk 19 12.0).
    assert (forall r s, (r, s) ∈ speeds sceneGlobals ->
              rotationY (sceneHeap (random host)) r = Some 0 ->
              rotationY (turnAll 1.0 (speeds sceneGlobals) (sceneHeap (random host))) r
              = Some (MathUtils.degToRad s)) as Hzero.
    { intros r s Hin Hr. destruct (Hturn r s Hin) as (y & Hy & ->).
      rewrite Hr in Hy. injection Hy as <-. f_equal. lra. }
    split_and!; try reflexivity;
      (apply Hzero; [|reflexivity]);
      unfold speeds, sceneGlobals; cbn; rewrite !elem_of_cons; auto 10.
Qed.

Lemma animate_increments_witness :
  reachable exampleHost (start exampleHost)
  /\ exists P',
      animate exampleHost 1.0 (start exampleHost) = Some P'
      /\ rotationY (heap P') 15 = Some (MathUtils.degToRad 29.7).
Proof.
  split; [apply reachable_start|].
  destruct (animate_increments exampleHost (start exampleHost) 1.0
              (reachable_start exampleHost))
    as (P' & E & _ & _ & Hearth).
  exists P'. split; [exact E|].
  destruct (Hearth (main_run exampleHost) eq_refl)
    as (_ & e & m & He & _ & _ & Hy & _).
  injection He as <-. exact Hy.
Defined.

(** C4.  A tick that succeeds allocates nothing and leaves the
    module-level constants alone; every node keeps its position, its
    scale, its rotation about x and about z, its parent, its children, its
    shadow flags and what it draws; and a node that is changed at all -- in
    its rotation about y, then -- is the sun mesh, or the orbit pivot, the
    body mesh or a moon pivot of a planet handle.  So a body moves on its
    orbit by the rotation of its pivot, never by a change of position. *)
Theorem animate_frame host dt P P' :
  animate host dt P = Some P' ->
  globals P' = globals P
  /\ length (heap P') = length (heap P)
  /\ forall r o, heap P !! r = Some o ->
      exists o', heap P' !! r = Some o'
        /\ position o' = position o
        /\ scale o' = scale o
        /\ Euler.x (rotation o') = Euler.x (rotation o)
        /\ Euler.z (rotation o') = Euler.z (rotation o)
        /\ parent o' = parent o
        /\ children o' = children o
        /\ castShadow o' = castShadow o
        /\ receiveShadow o' = receiveShadow o
        /\ drawable o' = drawable o
        /\ (o' = o
            \/ r = sun (globals P)
            \/ exists p, p ∈ planets (globals P)
                /\ (r = Handle.orbitPivot p \/ r = Handle.mesh p
                    \/ exists m, m ∈ Handle.moonPivots p /\ r = MoonHandle.pivot m)).
Proof.
  intros E. apply animate_inv in E as (_ & Hg & ->).
  split_and!; [done|apply length_turnAll|].
  intros r o Ho.
  exists (add_rotation_y (angleOf dt (speeds (globals P)) r) o).
  split_and!; [by rewrite turnAll_lookup, Ho | reflexivity.. |].
  destruct (decide (r ∈ animated (globals P))) as [Hin|Hnotin].
  - right. by apply elem_of_animated.
  - left. rewrite (angleOf_notin _ _ _ Hnotin). apply add_rotation_y_0.
Qed.

Lemma animate_frame_witness :
  exists P',
    animate exampleHost 0.5 (start exampleHost) = Some P'
    /\ globals P' = sceneGlobals /\ length (heap P') = 38%nat.
Proof.
  destruct (animate_run exampleHost 0.5 (start exampleHost)
              (reachable_valid _ _ (reachable_start exampleHost))) as [P' E].
  exists P'. split; [exact E|].
  destruct (animate_frame exampleHost 0.5 (start exampleHost) P' E) as (Hg & Hl & _).
  split; [exact Hg | exact Hl].
Defined.

(** ** The body factory *)

(** C9.  On a heap where [sunGroup] is allocated, [createPlanet] returns a
    handle whose [moonPivots] has one entry per moon of the argument, in
    the same order, each with the orbital speed of its moon as its speed
    and with a pivot that is a group attached to the body group of the
    planet; and the handle has a ring mesh exactly when the argument has a
    ring. *)
Theorem createPlanet_moonPivots_ringMesh sunGroup params h :
  (sunGroup < length h)%nat ->
  exists handle h' groupObj,
    createPlanet sunGroup params h = Some (handle, h')
    /\ h' !! Handle.planetGroup handle = Some groupObj
    /\ map MoonHandle.speed (Handle.moonPivots handle)
       = map Moon.orbitalSpeed (default [] (Params.moons params))
    /\ (forall i m, default [] (Params.moons params) !! i = Some m ->
          exists mh pivotObj,
            Handle.moonPivots handle !! i = Some mh
            /\ MoonHandle.speed mh = Moon.orbitalSpeed m
            /\ h' !! MoonHandle.pivot mh = Some pivotObj
            /\ drawable pivotObj = Group
            /\ parent pivotObj = Some (Handle.planetGroup handle)
            /\ MoonHandle.pivot mh ∈ children groupObj)
    /\ (is_Some (Handle.ringMesh handle) <-> is_Some (Params.ring params)).
Proof.
  intros Hsg. eexists _, _, _.
  split; [by apply createPlanet_run|].
  cbn [planetHandle Handle.planetGroup Handle.moonPivots Handle.ringMesh].
  split; [rewrite planetNodes_lookup_at; reflexivity|].
  split; [apply moonHandles_speed|].
  split.
  - intros i m Hm.
    destruct (moon_lookup (length h + 2) _ (length h + 4 + ringSize (Params.ring params))
                          i m Hm) as (Hh & Hp & _).
    eexists _, _. split; [exact Hh|]. cbn [MoonHandle.speed MoonHandle.pivot].
    split; [done|].
    split.
    { replace (length h + 4 + ringSize (Params.ring params) + 2 * i)%nat
        with (length h + (4 + ringSize (Params.ring params) + 2 * i))%nat by lia.
      rewrite planetNodes_lookup_at, planetNodes_moon. exact Hp. }
    split_and!; [done..|].
    cbn [children set_children]. apply elem_of_cons. right.
    apply elem_of_app. right. apply list_elem_of_fmap.
    eexists. split; [|by eapply list_elem_of_lookup_2]. done.
  - destruct (Params.ring params); split; intros [? ?]; eauto; done.
Qed.

Lemma createPlanet_moonPivots_ringMesh_witness :
  (5 < length (sceneHeap (random exampleHost)))%nat
  /\ exists handle h',
      createPlanet 5 earth (sceneHeap (random exampleHost)) = Some (handle, h')
      /\ map MoonHandle.speed (Handle.moonPivots handle) = [12.0].
Proof.
  split; [rewrite length_sceneHeap; lia|].
  destruct (createPlanet_moonPivots_ringMesh 5 earth (sceneHeap (random exampleHost)))
    as (handle & h' & g & E & _ & Hs & _).
  { rewrite length_sceneHeap. lia. }
  exists handle, h'. split; [exact E | exact Hs].
Defined.

(** C10.  [createPlanet] succeeds whether or not a moon has a colour; the
    mesh of each moon, the only child of its pivot, has the colour of the
    moon when it is given and the colour 0xAAAAAA when it is left out. *)
Theorem createPlanet_moon_color sunGroup params h i m :
  (sunGroup < length h)%nat ->
  default [] (Params.moons params) !! i = Some m ->
  exists handle h' mh pivotObj meshRef meshObj geometry material,
    createPlanet sunGroup params h = Some (handle, h')
    /\ Handle.moonPivots handle !! i = Some mh
    /\ h' !! MoonHandle.pivot mh = Some pivotObj
    /\ children pivotObj = [meshRef]
    /\ h' !! meshRef = Some meshObj
    /\ drawable meshObj = Mesh geometry material
    /\ materialColor material = default 0xAAAAAA%N (Moon.color m)
    /\ (Moon.color m = None -> materialColor material = 0xAAAAAA%N).
Proof.
  intros Hsg Hm.
  destruct (moon_lookup (length h + 2) _ (length h + 4 + ringSize (Params.ring params))
                        i m Hm) as (Hh & Hp & Hmesh).
  eexists _, _, _, _, _, _, _, _.
  split; [by apply createPlanet_run|].
  cbn [planetHandle Handle.moonPivots].
  split; [exact Hh|]. cbn [MoonHandle.pivot].
  split.
  { replace (length h + 4 + ringSize (Params.ring params) + 2 * i)%nat
      with (length h + (4 + ringSize (Params.ring params) + 2 * i))%nat by lia.
    rewrite planetNodes_lookup_at, planetNodes_moon. exact Hp. }
  split; [reflexivity|].
  split.
  { replace (length h + 4 + ringSize (Params.ring params) + 2 * i + 1)%nat
      with (length h + (4 + ringSize (Params.ring params) + (2 * i + 1)))%nat by lia.
    rewrite planetNodes_lookup_at, planetNodes_moon. exact Hmesh. }
  split; [reflexivity|].
  split; [reflexivity|].
  intros Hnone. cbn. by rewrite Hnone.
Qed.

Lemma createPlanet_moon_color_witness :
  exists handle h',
    createPlanet 5
      (Params.mk None None None None None None None None
                 (Some [Moon.mk 1 8 20 None]))
      (sceneHeap (random exampleHost)) = Some (handle, h')
    /\ (drawable <$> h' !! 43%nat)
       = Some (Mesh (SphereGeometry 1 24 24) (standardMaterial 0xAAAAAA%N 0.8 0)).
Proof.
  destruct (createPlanet_moon_color 5
              (Params.mk None None None None None None None None
                         (Some [Moon.mk 1 8 20 None]))
              (sceneHeap (random exampleHost)) 0 (Moon.mk 1 8 20 None))
    as (handle & h' & mh & po & mr & mo & geo & mat & E & _).
  { rewrite length_sceneHeap. lia. }
  { reflexivity. }
  exists handle, h'. split; [exact E|].
  rewrite createPlanet_run in E by (rewrite length_sceneHeap; lia).
  injection E as _ <-. reflexivity.
Defined.

(** On a heap where [sunGroup] is allocated, [createPlanet] succeeds
    for every parameter record.  Every field left out takes its default: the name
    'planet', radius 2, colour 0xB1B1B1, distance 25, orbital speed 0.5,
    spin speed 15, tilt 0, no ring, no moons.  The defaults show in the
    handle and in the nodes: the sphere of the mesh and its colour, the
    position and the tilt of the body group, the radius of the orbit
    path.  In particular this holds for the empty record. *)
Lemma createPlanet_fills_defaults sunGroup params h :
  (sunGroup < length h)%nat ->
  exists handle h' pivotObj lineObj groupObj meshObj,
    createPlanet sunGroup params h = Some (handle, h')
    /\ h' !! Handle.orbitPivot handle = Some pivotObj
    /\ h' !! S (Handle.orbitPivot handle) = Some lineObj
    /\ h' !! Handle.planetGroup handle = Some groupObj
    /\ h' !! Handle.mesh handle = Some meshObj
    /\ Handle.name handle = default "planet"%string (Params.name params)
    /\ drawable meshObj
       = Mesh (SphereGeometry (default 2 (Params.radius params)) 32 32)
              (standardMaterial (default 0xB1B1B1%N (Params.color params)) 0.7 0.0)
    /\ position groupObj = Vector3.mk (default 25 (Params.distance params)) 0 0
    /\ drawable lineObj
       = LineLoop (FromPoints (orbitPoints (default 25 (Params.distance params))))
                  (LineBasicMaterial 0x333344%N)
    /\ Handle.orbitalSpeed handle = default 0.5 (Params.orbitalSpeed params)
    /\ Handle.spinSpeed handle = default 15 (Params.spinSpeed params)
    /\ rotation groupObj
       = Euler.mk 0 0 (MathUtils.degToRad (default 0 (Params.tiltDeg params)))
    /\ (Params.ring params = None -> Handle.ringMesh handle = None)
    /\ (Params.moons params = None -> Handle.moonPivots handle = [])
    /\ (params = Params.empty ->
        handle = Handle.mk "planet" (length h) (length h + 2) (length h + 3)
                           None 15 0.5 []
        /\ length h' = (length h + 4)%nat
        /\ children groupObj = [Handle.mesh handle]
        /\ drawable meshObj
           = Mesh (SphereGeometry 2 32 32) (standardMaterial 0xB1B1B1%N 0.7 0.0)
        /\ position groupObj = Vector3.mk 25 0 0
        /\ rotation groupObj = Euler.mk 0 0 (MathUtils.degToRad 0)).
Proof.
  intros Hsg. eexists _, _, _, _, _, _.
  split; [by apply createPlanet_run|].
  cbn [planetHandle Handle.orbitPivot Handle.planetGroup Handle.mesh Handle.name
       Handle.orbitalSpeed Handle.spinSpeed Handle.ringMesh Handle.moonPivots].
  pose proof (planetNodes_lookup_at sunGroup params h 0) as E0.
  pose proof (planetNodes_lookup_at sunGroup params h 1) as E1.
  rewrite Nat.add_0_r in E0. rewrite Nat.add_1_r in E1.
  split; [rewrite E0; reflexivity|].
  split; [rewrite E1; reflexivity|].
  split; [rewrite planetNodes_lookup_at; reflexivity|].
  split; [rewrite planetNodes_lookup_at; reflexivity|].
  split_and!; try reflexivity.
  - by intros ->.
  - by intros ->.
  - intros ->. split_and!; try reflexivity.
    rewrite length_app, length_alter. reflexivity.
Qed.




(** C3.  The orbit line [createPlanet] makes is the first child of the
    orbit pivot, at the origin of the pivot; for an orbit of radius [d]
    (25 when the distance is left out) it has 129 vertices, each in the
    plane y = 0 at distance [|d|] of the origin, which is [d] when [d] is
    not negative; and its first and last vertex are the same point,
    (d, 0, 0). *)
Theorem createPlanet_orbit_path sunGroup params h :
  (sunGroup < length h)%nat ->
  let d := default 25 (Params.distance params) in
  exists handle h' pivotObj line lineObj material,
    createPlanet sunGroup params h = Some (handle, h')
    /\ h' !! Handle.orbitPivot handle = Some pivotObj
    /\ position pivotObj = Vector3.zero
    /\ head (children pivotObj) = Some line
    /\ h' !! line = Some lineObj
    /\ position lineObj = Vector3.zero
    /\ drawable lineObj = LineLoop (FromPoints (orbitPoints d)) material
    /\ length (orbitPoints d) = 129%nat
    /\ (forall v, v ∈ orbitPoints d ->
          Vector3.y v = 0
          /\ Vector3.length v = Rabs d
          /\ (0 <= d -> Vector3.length v = d))
    /\ head (orbitPoints d) = last (orbitPoints d)
    /\ head (orbitPoints d) = Some (Vector3.mk d 0 0).
Proof.
  intros Hsg d. eexists _, _, _, _, _, _.
  split; [by apply createPlanet_run|].
  cbn [planetHandle Handle.orbitPivot].
  pose proof (planetNodes_lookup_at sunGroup params h 0) as E0.
  rewrite Nat.add_0_r in E0.
  split; [rewrite E0; reflexivity|].
  split; [reflexivity|].
  split; [reflexivity|].
  split; [rewrite planetNodes_lookup_at; reflexivity|].
  split; [reflexivity|].
  split; [reflexivity|].
  split; [apply length_orbitPoints|].
  split.
  - intros v Hv. destruct (orbitPoints_on_circle d v Hv) as [Hy Hlen].
    split_and!; [done..|]. intros Hd. by rewrite Hlen, Rabs_pos_eq.
  - by rewrite head_orbitPoints, last_orbitPoints.
Qed.

Lemma createPlanet_orbit_path_witness :
  (5 < length (sceneHeap (random exampleHost)))%nat
  /\ forall v, v ∈ orbitPoints 115 -> Vector3.length v = 115.
Proof.
  split; [rewrite length_sceneHeap; lia|].
  destruct (createPlanet_orbit_path 5 saturn (sceneHeap (random exampleHost)))
    as (handle & h' & po & l & lo & mat & _ & _ & _ & _ & _ & _ & _ & _ & Hv & _).
  { rewrite length_sceneHeap. lia. }
  intros v Hin. destruct (Hv v Hin) as (_ & _ & Hd). apply Hd. cbn. lra.
Defined.

(** ** The ring *)

(** C5.  When the argument of [createPlanet] has a ring, the ring mesh of
    the handle is a child of the body group, and of no other node made for
    the planet: its parent is the body group and it is not among the
    children of the orbit pivot.  The mesh itself is not rotated; its
    geometry is the ring turned by -PI/2, that is -90 degrees, about the x
    axis.  And whatever ticks follow in a state of the program, they
    succeed and leave the ring mesh of every planet handle as it is: its
    rotation is never written. *)
Theorem ring_attached_and_static sunGroup params ring h host P dts :
  (sunGroup < length h)%nat ->
  Params.ring params = Some ring ->
  reachable host P ->
  (exists handle h' r ringObj groupObj pivotObj,
     createPlanet sunGroup params h = Some (handle, h')
     /\ Handle.ringMesh handle = Some r
     /\ h' !! r = Some ringObj
     /\ h' !! Handle.planetGroup handle = Some groupObj
     /\ h' !! Handle.orbitPivot handle = Some pivotObj
     /\ parent ringObj = Some (Handle.planetGroup handle)
     /\ r ∈ children groupObj
     /\ (r ∉ children pivotObj)
     /\ rotation ringObj = Euler.zero
     /\ drawable ringObj
        = Mesh (RotateX (- PI / 2)
                        (RingGeometry (Ring.inner ring) (Ring.outer ring) 64))
               (MeshBasicMaterial (Ring.color ring) DoubleSide true 0.6)
     /\ (- PI / 2 = MathUtils.degToRad (- 90))
     /\ createRing (Handle.planetGroup handle) (Some ring)
        = (ringMesh ← new (object3D (drawable ringObj));
           add (Handle.planetGroup handle) ringMesh ;;
           mret (Some ringMesh)))
  /\ (exists P',
        run host dts P = Some P'
        /\ forall p r, p ∈ planets (globals P) -> Handle.ringMesh p = Some r ->
             is_Some (heap P !! r)
             /\ heap P' !! r = heap P !! r
             /\ (rotation <$> heap P' !! r) = (rotation <$> heap P !! r)).
Proof.
  intros Hsg Hring HP. split.
  - eexists _, _, _, _, _, _.
    split; [by apply createPlanet_run|].
    cbn [planetHandle Handle.orbitPivot Handle.planetGroup Handle.ringMesh].
    rewrite Hring.
    pose proof (planetNodes_lookup_at sunGroup params h 0) as E0.
    rewrite Nat.add_0_r in E0.
    split; [reflexivity|].
    split; [rewrite planetNodes_lookup_at; unfold planetNodes; rewrite Hring; reflexivity|].
    split; [rewrite planetNodes_lookup_at; reflexivity|].
    split; [rewrite E0; reflexivity|].
    split; [reflexivity|].
    split.
    { cbn [children set_children planetHandle Handle.ringMesh]. rewrite Hring.
      apply elem_of_cons. right. apply elem_of_app. left. apply list_elem_of_here. }
    split.
    { cbn [children set_children]. rewrite !elem_of_cons, elem_of_nil. lia. }
    split; [reflexivity|].
    split; [reflexivity|].
    split; [|reflexivity].
    unfold MathUtils.degToRad, MathUtils.DEG2RAD. lra.
  - destruct (run_reachable host dts P HP) as (P' & E & _ & Hfr).
    exists P'. split; [done|]. intros p r Hp Hr.
    pose proof (reachable_inv _ _ HP) as [Hg Hl]. rewrite Hg in Hp.
    assert (r = 37%nat) as ->.
    { assert (Forall (fun p => forall r, Handle.ringMesh p = Some r -> r = 37%nat)
                     (planets sceneGlobals)) as Hall
        by (repeat constructor; intros r' [= <-]; reflexivity).
      rewrite Forall_forall in Hall. by apply (Hall p). }
    assert (heap P' !! 37%nat = heap P !! 37%nat) as Hsame.
    { apply Hfr. rewrite animated_sceneGlobals. rewrite !elem_of_cons, elem_of_nil. lia. }
    split_and!; [apply lookup_lt_is_Some_2; lia | done | by rewrite Hsame].
Qed.

Lemma ring_attached_and_static_witness :
  (5 < length (sceneHeap (random exampleHost)))%nat
  /\ Params.ring saturn = Some (Ring.mk 8.0 12.0 0xdccfa0%N)
  /\ reachable exampleHost (start exampleHost)
  /\ exists P',
      run exampleHost [0.016; 0.017] (start exampleHost) = Some P'
      /\ heap P' !! 37%nat = sceneHeap (random exampleHost) !! 37%nat.
Proof.
  split; [rewrite length_sceneHeap; lia|].
  split; [reflexivity|].
  split; [apply reachable_start|].
  destruct (ring_attached_and_static 5 saturn (Ring.mk 8.0 12.0 0xdccfa0%N)
              (sceneHeap (random exampleHost)) exampleHost (start exampleHost)
              [0.016; 0.017]) as [_ (P' & E & Hr)].
  { rewrite length_sceneHeap. lia. }
  { reflexivity. }
  { apply reachable_start. }
  exists P'. split; [exact E|].
  destruct (Hr (planetHandle 33 saturn) 37%nat) as (_ & Hsame & _).
  { cbn. rewrite !elem_of_cons. auto 10. }
  { reflexivity. }
  exact Hsame.
Defined.

(** ** Accumulation of angles *)

(** C6.  In a state of the program where the orbit pivot of a planet
    handle has rotation 0 about y, a tick of duration [t1] followed by a
    tick of duration [t2] leaves it at [degToRad(orbitalSpeed) * (t1 + t2)];
    and the two ticks leave the whole scene graph as one tick of duration
    [t1 + t2] does.  (Numbers are real numbers here: the arithmetic is
    exact.) *)
Theorem animate_additive host P p t1 t2 :
  reachable host P ->
  p ∈ planets (globals P) ->
  rotationY (heap P) (Handle.orbitPivot p) = Some 0 ->
  exists P1 P2 P12,
    animate host t1 P = Some P1
    /\ animate host t2 P1 = Some P2
    /\ animate host (t1 + t2) P = Some P12
    /\ rotationY (heap P2) (Handle.orbitPivot p)
       = Some (MathUtils.degToRad (Handle.orbitalSpeed p) * (t1 + t2))
    /\ rotationY (heap P12) (Handle.orbitPivot p)
       = rotationY (heap P2) (Handle.orbitPivot p)
    /\ heap P12 = heap P2.
Proof.
  intros HP Hp Hzero.
  pose proof (reachable_valid _ _ HP) as Hv.
  pose proof (reachable_NoDup _ _ HP) as Hnd.
  destruct (animate_run host t1 P Hv) as [P1 E1].
  assert (reachable host P1) as HP1 by (by eapply reachable_animate).
  destruct (animate_run host t2 P1 (reachable_valid _ _ HP1)) as [P2 E2].
  destruct (animate_run host (t1 + t2) P Hv) as [P12 E12].
  exists P1, P2, P12. split_and!; [done..| | |].
  - apply animate_inv in E1 as (_ & Hg1 & E1).
    apply animate_inv in E2 as (_ & _ & ->). rewrite Hg1, E1.
    erewrite rotationY_turnAll; [|erewrite rotationY_turnAll; [reflexivity|exact Hzero]].
    rewrite !(angleOf_NoDup _ _ _ _ Hnd (orbitPivot_speeds _ _ Hp)).
    apply (f_equal Some). lra.
  - apply animate_inv in E1 as (_ & Hg1 & E1).
    apply animate_inv in E2 as (_ & _ & ->). apply animate_inv in E12 as (_ & _ & ->).
    rewrite Hg1, E1. unfold rotationY. rewrite !turnAll_lookup, angleOf_plus.
    destruct (heap P !! Handle.orbitPivot p) as [o|]; [|done]. cbn.
    apply (f_equal Some). lra.
  - apply animate_inv in E1 as (_ & Hg1 & E1).
    apply animate_inv in E2 as (_ & _ & ->). apply animate_inv in E12 as (_ & _ & ->).
    rewrite Hg1, E1. apply list_eq. intros r. rewrite !turnAll_lookup, angleOf_plus.
    destruct (heap P !! r) as [o|]; [|done].
    cbn [fmap option_fmap option_map]. by rewrite add_rotation_y_add.
Qed.

Lemma animate_additive_witness :
  reachable exampleHost (start exampleHost)
  /\ planetHandle 15 earth ∈ planets (globals (start exampleHost))
  /\ rotationY (heap (start exampleHost)) 15 = Some 0
  /\ exists P1 P2,
      animate exampleHost 0.25 (start exampleHost) = Some P1
      /\ animate exampleHost 0.5 P1 = Some P2
      /\ rotationY (heap P2) 15 = Some (MathUtils.degToRad 29.7 * (0.25 + 0.5)).
Proof.
  assert (planetHandle 15 earth ∈ planets (globals (start exampleHost))) as Hp.
  { cbn. rewrite !elem_of_cons. auto 10. }
  split; [apply reachable_start|]. split; [exact Hp|]. split; [reflexivity|].
  destruct (animate_additive exampleHost (start exampleHost) (planetHandle 15 earth)
              0.25 0.5 (reachable_start exampleHost) Hp eq_refl)
    as (P1 & P2 & P12 & E1 & E2 & _ & Hy & _).
  exists P1, P2. split; [exact E1|]. split; [exact E2 | exact Hy].
Defined.

(** ** The viewport adapter *)

Lemma reachable_pixelRatio host P :
  reachable host P ->
  WebGLRenderer.pixelRatio (renderer P) = Rmin (devicePixelRatio host) 2.
Proof.
  induction 1 as [P E|dt P P' _ IH E|w h P _ IH].
  - rewrite main_run in E. by injection E as <-.
  - unfold animate in E.
    destruct (updateRotations (globals P) dt (heap P)) as [[u h']|]; [|done].
    cbn in E. by injection E as <-.
  - exact IH.
Qed.

(** C7.  In a state of the program, the resize listener for a window of
    [w] by [h] is a total function of the state.  It sets the aspect of
    the camera to [w / h] and recomputes the projection at once, so the
    projection is the one of the new aspect, and still is after the next
    tick has rendered a frame; it sets the size of the renderer to [w] by
    [h], and the surface to [w] and [h] times the pixel ratio, which is
    [min(devicePixelRatio, 2)] as set when the script started.  It leaves
    the scene graph alone.  For 800 by 600 the aspect is 800/600 and the
    surface 800 and 600 times that ratio. *)
Theorem onResize_spec host P w h :
  reachable host P ->
  let P' := onResize w h P in
  let ratio := Rmin (devicePixelRatio host) 2 in
  PerspectiveCamera.aspect (camera P') = w / h
  /\ PerspectiveCamera.projectionMatrix (camera P')
     = PerspectiveCamera.projection (camera P')
  /\ WebGLRenderer.width (renderer P') = w
  /\ WebGLRenderer.height (renderer P') = h
  /\ WebGLRenderer.pixelRatio (renderer P') = ratio
  /\ WebGLRenderer.canvasWidth (renderer P') = w * ratio
  /\ WebGLRenderer.canvasHeight (renderer P') = h * ratio
  /\ heap P' = heap P
  /\ globals P' = globals P
  /\ reachable host P'
  /\ (forall dt, exists P'',
        animate host dt P' = Some P''
        /\ WebGLRenderer.frames (renderer P'') = S (WebGLRenderer.frames (renderer P'))
        /\ PerspectiveCamera.aspect (camera P'') = w / h
        /\ PerspectiveCamera.projectionMatrix (camera P'')
           = PerspectiveCamera.projection (camera P''))
  /\ (w = 800 -> h = 600 ->
        PerspectiveCamera.aspect (camera P') = 800 / 600
        /\ WebGLRenderer.canvasWidth (renderer P') = 800 * ratio
        /\ WebGLRenderer.canvasHeight (renderer P') = 600 * ratio).
Proof.
  intros HP P' ratio.
  pose proof (reachable_pixelRatio _ _ HP) as Hratio. fold ratio in Hratio.
  assert (reachable host P') as HP' by (by apply reachable_resize).
  assert (WebGLRenderer.canvasWidth (renderer P') = w * ratio) as Hw
    by (cbn; by rewrite Hratio).
  assert (WebGLRenderer.canvasHeight (renderer P') = h * ratio) as Hh
    by (cbn; by rewrite Hratio).
  split_and!; try done.
  - intros dt. destruct (animate_run host dt P' (reachable_valid _ _ HP')) as [P'' E].
    exists P''. split; [done|]. unfold animate in E.
    destruct (updateRotations (globals P') dt (heap P')) as [[u h']|]; [|done].
    cbn in E. by injection E as <-.
  - by intros -> ->.
Qed.

Lemma onResize_spec_witness :
  reachable exampleHost (start exampleHost)
  /\ PerspectiveCamera.aspect (camera (onResize 800 600 (start exampleHost))) = 800 / 600
  /\ WebGLRenderer.canvasWidth (renderer (onResize 800 600 (start exampleHost))) = 1200
  /\ WebGLRenderer.canvasHeight (renderer (onResize 800 600 (start exampleHost))) = 900.
Proof.
  split; [apply reachable_start|].
  destruct (onResize_spec exampleHost (start exampleHost) 800 600
              (reachable_start exampleHost))
    as (Ha & _ & _ & _ & _ & Hw & Hh & _).
  assert (Rmin (devicePixelRatio exampleHost) 2 = 1.5) as Hr.
  { cbn. apply Rmin_left. lra. }
  rewrite Hr in Hw, Hh.
  split; [exact Ha|]. split.
  - rewrite Hw. lra.
  - rewrite Hh. lra.
Defined.

(** ** The scene assembler *)

(** C2.  The section "Create Planets" of the script is six pushes of the
    result of [createPlanet], for mercury, venus, earth, mars, jupiter and
    saturn in this order; the six arguments stand for the six rows of the
    reference table; and the scene the script builds has in [planets], the
    list the animation loop runs over, exactly six handles, one per row
    and in the order of the table, each for a planet with the name,
    radius, distance, orbital speed, spin speed, tilt, ring and moons of
    its row. *)
Theorem createPlanets_reference_table random sunGroup :
  createPlanets sunGroup
  = pushPlanets sunGroup [] [mercury; venus; earth; mars; jupiter; saturn]
  /\ map rowOf [mercury; venus; earth; mars; jupiter; saturn] = referenceTable
  /\ exists g h,
      buildScene random [] = Some (g, h)
      /\ length (planets g) = 6%nat
      /\ map Handle.name (planets g)
         = ["mercury"; "venus"; "earth"; "mars"; "jupiter"; "saturn"]%string
      /\ Forall2 (realises h) (planets g) referenceTable
      /\ updateRotations g
         = (fun dt => modify (add_rotation_y (MathUtils.degToRad 2.0 * dt)) (sun g) ;;
                      forEach (animatePlanet dt) (planets g)).
Proof.
  split; [reflexivity|]. split; [reflexivity|].
  exists sceneGlobals, (sceneHeap random).
  split; [apply buildScene_run|]. split; [reflexivity|]. split; [reflexivity|].
  split; [|reflexivity].
  unfold referenceTable, sceneGlobals. cbn [planets].
  repeat
    (constructor;
     [unfold realises; eexists _, _, _;
      split_and!;
      [reflexivity..
      |cbn; first [exact Logic.I | eexists _, _, _; split; reflexivity]
      |cbn;
       repeat (constructor;
               [unfold moonRealises; eexists _, _, _, _; split_and!; reflexivity|]);
       constructor]
     |]).
  constructor.
Qed.

(** * Further properties *)

(** ** What [createPlanet] does to the heap *)

Section factory_effects.
Implicit Types (h : list Object3D) (n pg sg base i j k : nat) (ms : list Moon.t).

Lemma length_moonNodes pg ms : forall base,
  length (moonNodes pg base ms) = (2 * length ms)%nat.
Proof.
  induction ms as [|m ms IH]; intros base; [done|].
  cbn [moonNodes length]. rewrite IH. lia.
Qed.

Lemma length_planetNodes n sg params :
  length (planetNodes n sg params) = planetSize params.
Proof.
  unfold planetNodes, planetSize.
  destruct (Params.ring params); cbn [app length ringSize];
    rewrite ?length_app, length_moonNodes; cbn [length]; lia.
Qed.

(** X1.  [createPlanet] allocates four objects, one more for a ring and two
    per moon, after the objects that exist; of these it changes only
    [sunGroup], which gets the orbit pivot as its last child. *)
Theorem createPlanet_frame sunGroup params h :
  (sunGroup < length h)%nat ->
  exists handle h' sunGroupObj,
    createPlanet sunGroup params h = Some (handle, h')
    /\ length h' = (length h + planetSize params)%nat
    /\ Handle.orbitPivot handle = length h
    /\ h !! sunGroup = Some sunGroupObj
    /\ h' !! sunGroup = Some (push_child (Handle.orbitPivot handle) sunGroupObj)
    /\ forall r, r <> sunGroup -> (r < length h)%nat -> h' !! r = h !! r.
Proof.
  intros Hsg. destruct (lookup_lt_is_Some_2 _ _ Hsg) as [sgo Hsgo].
  eexists _, _, sgo. split; [by apply createPlanet_run|].
  split; [by rewrite length_app, length_alter, length_planetNodes|].
  split; [reflexivity|]. split; [done|]. split.
  - rewrite lookup_app_l by (by rewrite length_alter).
    by rewrite list_lookup_alter_eq, Hsgo.
  - intros r Hne Hr. rewrite lookup_app_l by (by rewrite length_alter).
    by rewrite list_lookup_alter_ne.
Qed.

Lemma createPlanet_frame_witness :
  (5 < length (sceneHeap (random exampleHost)))%nat
  /\ exists handle h',
      createPlanet 5 saturn (sceneHeap (random exampleHost)) = Some (handle, h')
      /\ length h' = 43%nat.
Proof.
  split; [rewrite length_sceneHeap; lia|].
  destruct (createPlanet_frame 5 saturn (sceneHeap (random exampleHost)))
    as (handle & h' & o & E & Hl & _).
  { rewrite length_sceneHeap. lia. }
  exists handle, h'. split; [exact E|]. rewrite Hl, length_sceneHeap. reflexivity.
Defined.

(** X2.  The nodes of a planet hang together as the script attaches them:
    the orbit pivot, at the origin and not rotated, under [sunGroup]; the
    orbit line and the body group, in this order, under the pivot; the
    mesh, at the origin of the body group, first under the body group.
    The body group is placed at the first vertex of the orbit line: the
    planet sits on its orbit path. *)
Theorem createPlanet_hierarchy sunGroup params h :
  (sunGroup < length h)%nat ->
  exists handle h' pivotObj line lineObj groupObj meshObj,
    createPlanet sunGroup params h = Some (handle, h')
    /\ h' !! Handle.orbitPivot handle = Some pivotObj
    /\ h' !! line = Some lineObj
    /\ h' !! Handle.planetGroup handle = Some groupObj
    /\ h' !! Handle.mesh handle = Some meshObj
    /\ parent pivotObj = Some sunGroup
    /\ position pivotObj = Vector3.zero
    /\ rotation pivotObj = Euler.zero
    /\ children pivotObj = [line; Handle.planetGroup handle]
    /\ parent lineObj = Some (Handle.orbitPivot handle)
    /\ children lineObj = []
    /\ rotation lineObj = Euler.zero
    /\ parent groupObj = Some (Handle.orbitPivot handle)
    /\ head (children groupObj) = Some (Handle.mesh handle)
    /\ parent meshObj = Some (Handle.planetGroup handle)
    /\ children meshObj = []
    /\ position meshObj = Vector3.zero
    /\ rotation meshObj = Euler.zero
    /\ Forall (fun o => scale o = Vector3.one) [pivotObj; lineObj; groupObj; meshObj]
    /\ (exists geometry material,
          drawable lineObj = LineLoop (FromPoints geometry) material
          /\ head geometry = Some (position groupObj)).
Proof.
  intros Hsg. eexists _, _, _, (length h + 1)%nat, _, _, _.
  split; [by apply createPlanet_run|].
  cbn [planetHandle Handle.orbitPivot Handle.planetGroup Handle.mesh].
  pose proof (planetNodes_lookup_at sunGroup params h 0) as E0.
  rewrite Nat.add_0_r in E0.
  split; [rewrite E0; reflexivity|].
  do 3 (split; [rewrite planetNodes_lookup_at; reflexivity|]).
  split_and!; try reflexivity.
  - repeat constructor.
  - eexists _, _. split; [reflexivity|]. cbn [position set_children set_parent
      set_rotation_z set_rotation set_position object3D]. apply head_orbitPoints.
Qed.

Lemma createPlanet_hierarchy_witness :
  (5 < length (sceneHeap (random exampleHost)))%nat
  /\ exists handle h',
      createPlanet 5 venus (sceneHeap (random exampleHost)) = Some (handle, h')
      /\ (children <$> h' !! 38%nat) = Some [39; 40]%nat.
Proof.
  split; [rewrite length_sceneHeap; lia|].
  destruct (createPlanet_hierarchy 5 venus (sceneHeap (random exampleHost)))
    as (handle & h' & po & l & lo & go & mo & E & _).
  { rewrite length_sceneHeap. lia. }
  exists handle, h'. split; [exact E|].
  rewrite createPlanet_run in E by (rewrite length_sceneHeap; lia).
  injection E as _ <-. reflexivity.
Defined.

End factory_effects.

(** ** The parent-child relation *)

Section consistency.
Implicit Types (h : list Object3D) (n pg sg base i j k r c p : nat) (ms : list Moon.t).

(** A node of the moons is the pivot or the mesh of one of them. *)
Lemma moonNodes_lookup_inv pg ms : forall base j o,
  moonNodes pg base ms !! j = Some o ->
  exists i m, ms !! i = Some m
    /\ ((j = (2 * i)%nat /\ o = moonPivotNode pg (base + 2 * i))
        \/ (j = (2 * i + 1)%nat /\ o = moonMeshNode (base + 2 * i) m)).
Proof.
  induction ms as [|m0 ms IH]; intros base j o Hj; [done|].
  destruct j as [|[|j]]; cbn in Hj.
  - injection Hj as <-. exists 0%nat, m0. split; [done|]. left.
    by rewrite Nat.add_0_r.
  - injection Hj as <-. exists 0%nat, m0. split; [done|]. right.
    by rewrite Nat.add_0_r.
  - destruct (IH _ _ _ Hj) as (i & m & Hm & Hcase).
    exists (S i), m. split; [done|].
    replace (base + 2 * S i)%nat with (base + 2 + 2 * i)%nat by lia.
    destruct Hcase as [[-> ->]|[-> ->]]; [left|right]; split; [lia|done|lia|done].
Qed.

(** The pivots of the moons are every second reference from [base] on. *)
Lemma moonHandles_pivot base ms c :
  c ∈ map MoonHandle.pivot (moonHandles base ms) <->
  exists i, (i < length ms)%nat /\ c = (base + 2 * i)%nat.
Proof.
  revert base. induction ms as [|m ms IH]; intros base; cbn [moonHandles map length].
  - rewrite elem_of_nil. split; [done|]. intros (i & Hi & _). lia.
  - rewrite elem_of_cons, IH. cbn [MoonHandle.pivot]. split.
    + intros [->|(i & Hi & ->)]; [exists 0%nat|exists (S i)]; split; lia.
    + intros ([|i] & Hi & ->); [left; lia|right]. exists i. split; lia.
Qed.

Lemma moonHandles_NoDup ms : forall base,
  NoDup (map MoonHandle.pivot (moonHandles base ms)).
Proof.
  induction ms as [|m ms IH]; intros base; cbn [moonHandles map]; [constructor|].
  apply NoDup_cons. split; [|apply IH].
  rewrite moonHandles_pivot. cbn [MoonHandle.pivot]. intros (i & _ & Hi). lia.
Qed.

(** The nodes of a planet, one by one. *)
Lemma planetNodes_lookup_inv n sg params k o :
  planetNodes n sg params !! k = Some o ->
  (k < 4)%nat
  \/ (exists ring, Params.ring params = Some ring /\ k = 4%nat
                   /\ o = ringNode (n + 2) ring)
  \/ (exists j, k = (4 + ringSize (Params.ring params) + j)%nat
        /\ moonNodes (n + 2) (n + 4 + ringSize (Params.ring params))
                     (default [] (Params.moons params)) !! j = Some o).
Proof.
  intros Hk. destruct (decide (k < 4)%nat) as [|Hge]; [by left|right].
  destruct (Params.ring params) as [ring|] eqn:Hring.
  - destruct (decide (k = 4%nat)) as [->|Hne].
    + left. exists ring. split; [done|]. split; [done|].
      unfold planetNodes in Hk. rewrite Hring in Hk. by injection Hk as <-.
    + right. exists (k - 5)%nat. cbn [ringSize]. split; [lia|].
      rewrite <- Hk. replace k with (4 + ringSize (Params.ring params) + (k - 5))%nat at 2
        by (rewrite Hring; cbn; lia).
      by rewrite planetNodes_moon, Hring.
  - right. exists (k - 4)%nat. cbn [ringSize]. split; [lia|].
    rewrite <- Hk. replace k with (4 + ringSize (Params.ring params) + (k - 4))%nat at 2
      by (rewrite Hring; cbn; lia).
    by rewrite planetNodes_moon, Hring.
Qed.

(** The children of the body group: the mesh, the ring mesh if there is
    one, the pivots of the moons. *)
Lemma planetGroup_children n sg params groupObj c :
  planetNodes n sg params !! 2%nat = Some groupObj ->
  c ∈ children groupObj <->
  c = (n + 3)%nat
  \/ (is_Some (Params.ring params) /\ c = (n + 4)%nat)
  \/ exists i, (i < length (default [] (Params.moons params)))%nat
       /\ c = (n + 4 + ringSize (Params.ring params) + 2 * i)%nat.
Proof.
  intros [= <-]. cbn [children set_children planetHandle Handle.ringMesh Handle.moonPivots].
  rewrite elem_of_cons, elem_of_app, moonHandles_pivot.
  destruct (Params.ring params) as [ring|]; cbn [option_list option_rect ringSize].
  - rewrite list_elem_of_singleton. split.
    + intros [->|[->|?]]; eauto.
    + intros [->|[[_ ->]|?]]; eauto.
  - rewrite elem_of_nil. split.
    + intros [->|[[]|?]]; eauto.
    + intros [->|[[[? [=]] _]|?]]; eauto.
Qed.

Lemma planetGroup_children_NoDup n sg params groupObj :
  planetNodes n sg params !! 2%nat = Some groupObj -> NoDup (children groupObj).
Proof.
  intros [= <-]. cbn [children set_children planetHandle Handle.ringMesh Handle.moonPivots].
  apply NoDup_cons. split.
  - rewrite elem_of_app, moonHandles_pivot.
    destruct (Params.ring params); cbn [option_list option_rect ringSize];
      rewrite ?list_elem_of_singleton, ?elem_of_nil; intros [?|(i & _ & ?)]; lia.
  - apply NoDup_app. split_and!; [|intros c Hc|apply moonHandles_NoDup].
    + destruct (Params.ring params); cbn; [apply NoDup_singleton|constructor].
    + rewrite moonHandles_pivot. intros (i & _ & ->).
      destruct (Params.ring params); cbn [option_list option_rect ringSize] in Hc;
        [apply list_elem_of_singleton in Hc; lia|by apply elem_of_nil in Hc].
Qed.

(** An object that exists keeps its parent and its children when a planet
    is created; [sunGroup] gets one more child. *)
Lemma createPlanet_old_node sg params h r o0 :
  h !! r = Some o0 ->
  exists o,
    (alter (push_child (length h)) sg h ++ planetNodes (length h) sg params) !! r = Some o
    /\ parent o = parent o0
    /\ (forall c, c ∈ children o0 -> c ∈ children o)
    /\ (r <> sg -> children o = children o0)
    /\ (r = sg -> children o = children o0 ++ [length h]).
Proof.
  intros Hr. pose proof (lookup_lt_Some _ _ _ Hr) as Hlt.
  rewrite lookup_app_l by (by rewrite length_alter).
  destruct (decide (sg = r)) as [->|Hne].
  - rewrite list_lookup_alter_eq, Hr. eexists. split; [reflexivity|].
    split_and!; [done| |done|done].
    intros c Hc. cbn. apply elem_of_app. by left.
  - rewrite list_lookup_alter_ne, Hr by done. eexists. split; [reflexivity|].
    split_and!; [done..|congruence].
Qed.


(** X3.  Each moon has a pivot and a mesh, allocated one after the other.
    The pivot is a group that is a child of the body group, at its origin,
    not rotated and not scaled, with the mesh of the moon as its only
    child; the mesh of the planet is a child of the body group at its
    origin too.  The mesh of the moon is a sphere of the radius of the
    moon at (distance, 0, 0) from the pivot: at distance [|distance|] of
    the centre of the planet. *)
Theorem createPlanet_moon_placement sunGroup params h i m :
  (sunGroup < length h)%nat ->
  default [] (Params.moons params) !! i = Some m ->
  exists handle h' mh groupObj planetObj pivotObj meshObj material,
    createPlanet sunGroup params h = Some (handle, h')
    /\ Handle.moonPivots handle !! i = Some mh
    /\ h' !! Handle.planetGroup handle = Some groupObj
    /\ h' !! Handle.mesh handle = Some planetObj
    /\ h' !! MoonHandle.pivot mh = Some pivotObj
    /\ h' !! S (MoonHandle.pivot mh) = Some meshObj
    /\ drawable pivotObj = Group
    /\ parent pivotObj = Some (Handle.planetGroup handle)
    /\ (MoonHandle.pivot mh ∈ children groupObj)
    /\ parent planetObj = Some (Handle.planetGroup handle)
    /\ position planetObj = Vector3.zero
    /\ position pivotObj = Vector3.zero
    /\ rotation pivotObj = Euler.zero
    /\ scale pivotObj = Vector3.one
    /\ children pivotObj = [S (MoonHandle.pivot mh)]
    /\ parent meshObj = Some (MoonHandle.pivot mh)
    /\ children meshObj = []
    /\ drawable meshObj = Mesh (SphereGeometry (Moon.radius m) 24 24) material
    /\ position meshObj = Vector3.mk (Moon.distance m) 0 0
    /\ Vector3.length (position meshObj) = Rabs (Moon.distance m).
Proof.
  intros Hsg Hm.
  destruct (moon_lookup (length h + 2) _ (length h + 4 + ringSize (Params.ring params))
                        i m Hm) as (Hh & Hp & Hmesh).
  eexists _, _, _, _, _, _, _, _.
  split; [by apply createPlanet_run|].
  cbn [planetHandle Handle.moonPivots Handle.planetGroup Handle.mesh].
  split; [exact Hh|]. cbn [MoonHandle.pivot].
  do 2 (split; [rewrite planetNodes_lookup_at; reflexivity|]).
  split.
  { replace (length h + 4 + ringSize (Params.ring params) + 2 * i)%nat
      with (length h + (4 + ringSize (Params.ring params) + 2 * i))%nat by lia.
    rewrite planetNodes_lookup_at, planetNodes_moon. exact Hp. }
  split.
  { replace (S (length h + 4 + ringSize (Params.ring params) + 2 * i))%nat
      with (length h + (4 + ringSize (Params.ring params) + (2 * i + 1)))%nat by lia.
    rewrite planetNodes_lookup_at, planetNodes_moon. exact Hmesh. }
  split_and!; try reflexivity.
  - apply (planetGroup_children (length h) sunGroup params _ _ eq_refl).
    right. right. exists i. split; [by eapply lookup_lt_Some|done].
  - cbn. f_equal. f_equal. lia.
  - unfold Vector3.length. cbn [position moonMeshNode set_parent set_position
      Vector3.x Vector3.y Vector3.z].
    replace (Moon.distance m * Moon.distance m + 0 * 0 + 0 * 0)
      with (Rsqr (Moon.distance m)) by (unfold Rsqr; lra).
    apply sqrt_Rsqr_abs.
Qed.

Lemma createPlanet_moon_placement_witness :
  (5 < length (sceneHeap (random exampleHost)))%nat
  /\ default [] (Params.moons earth) !! 0%nat = Some (Moon.mk 0.9 6 12.0 (Some 0xffffff%N))
  /\ exists handle h',
      createPlanet 5 earth (sceneHeap (random exampleHost)) = Some (handle, h')
      /\ (position <$> h' !! 43%nat) = Some (Vector3.mk 6 0 0)
      /\ (parent <$> h' !! 42%nat) = Some (Some 40%nat).
Proof.
  split; [rewrite length_sceneHeap; lia|]. split; [reflexivity|].
  destruct (createPlanet_moon_placement 5 earth (sceneHeap (random exampleHost)) 0
              (Moon.mk 0.9 6 12.0 (Some 0xffffff%N)))
    as (handle & h' & mh & go & plo & po & mo & mat & E & _).
  { rewrite length_sceneHeap. lia. }
  { reflexivity. }
  exists handle, h'. split; [exact E|].
  rewrite createPlanet_run in E by (rewrite length_sceneHeap; lia).
  injection E as _ <-. split; reflexivity.
Defined.

End consistency.

(** ** The scene graph of the program *)

Section scene_graph.
Implicit Types (h : list Object3D) (r c p : nat) (l : list (nat * R)).

Lemma links_lookup h r :
  links h !! r = (fun o => (parent o, children o)) <$> h !! r.
Proof. unfold links. apply list_lookup_fmap. Qed.

(** The computed check is sound. *)
Lemma consistentb_sound h : consistentb (links h) = true -> consistent h.
Proof.
  unfold consistentb. rewrite forallb_forall. intros Hall r o Hr.
  assert (In r (seq 0 (length (links h)))) as Hin.
  { apply in_seq. unfold links. rewrite length_map.
    apply lookup_lt_Some in Hr. lia. }
  specialize (Hall r Hin). rewrite links_lookup, Hr in Hall. cbn in Hall.
  apply andb_prop in Hall as [Hall Hnd]. apply andb_prop in Hall as [Hpar Hch].
  split_and!.
  - intros p Hp. rewrite Hp, links_lookup in Hpar.
    destruct (h !! p) as [po|]; [|done]. cbn in Hpar.
    exists po. split; [done|]. by apply bool_decide_eq_true in Hpar.
  - intros c Hc. rewrite forallb_forall in Hch.
    specialize (Hch c (proj1 (list_elem_of_In _ _) Hc)).
    rewrite links_lookup in Hch. destruct (h !! c) as [co|]; [|done]. cbn in Hch.
    exists co. split; [done|]. destruct (parent co) as [p'|]; [|done].
    apply bool_decide_eq_true in Hch. by subst.
  - by apply bool_decide_eq_true in Hnd.
Qed.

(** The rotation updates leave the parents and the children alone. *)
Lemma links_turnAll dt l : forall h, links (turnAll dt l h) = links h.
Proof.
  induction l as [|[r s] l IH]; intros h; [done|].
  rewrite turnAll_cons, IH. apply list_eq. intros i.
  rewrite !links_lookup, list_lookup_alter.
  destruct (decide (r = i)) as [->|]; [|done]. by destruct (h !! i).
Qed.

Lemma angleOf_0 l r : angleOf 0 l r = 0.
Proof.
  induction l as [|[r' s] l IH]; cbn [angleOf fst snd]; [done|].
  rewrite IH. destruct (decide (r' = r)); lra.
Qed.

(** Updates of duration 0 change nothing. *)
Lemma turnAll_0 l h : turnAll 0 l h = h.
Proof.
  apply list_eq. intros r. rewrite turnAll_lookup, angleOf_0.
  destruct (h !! r); cbn; [|done]. by rewrite add_rotation_y_0.
Qed.

(** The updates of two durations are the updates of their sum. *)
Lemma turnAll_turnAll t1 t2 l h :
  turnAll t2 l (turnAll t1 l h) = turnAll (t1 + t2) l h.
Proof.
  apply list_eq. intros r. rewrite !turnAll_lookup, angleOf_plus.
  destruct (h !! r) as [o|]; [|done].
  cbn [fmap option_fmap option_map]. by rewrite add_rotation_y_add.
Qed.

(** The heap of a state of the program: the scene the script has built,
    turned for some duration. *)
Lemma reachable_turnAll host P :
  reachable host P ->
  globals P = sceneGlobals
  /\ exists T, heap P = turnAll T (speeds sceneGlobals) (sceneHeap (random host)).
Proof.
  intros HP. split; [by apply reachable_inv in HP as [? _]|].
  induction HP as [P E|dt P P' HP [T IH] E|w h P _ IH].
  - apply main_inv in E as [_ ->]. exists 0. by rewrite turnAll_0.
  - pose proof (reachable_inv _ _ HP) as [Hg _].
    apply animate_inv in E as (_ & _ & ->). rewrite Hg, IH.
    exists (T + dt). apply turnAll_turnAll.
  - exact IH.
Qed.

(** X5.  In every state of the program the scene graph is the one the
    script has built, with each node that [animate] writes to turned
    about y by its speed times one and the same duration: the bodies never
    get out of step, and nothing else ever changes. *)
Theorem reachable_closed_form host P :
  reachable host P ->
  globals P = sceneGlobals
  /\ exists T,
      heap P = turnAll T (speeds sceneGlobals) (sceneHeap (random host))
      /\ forall r o0, sceneHeap (random host) !! r = Some o0 ->
           exists o, heap P !! r = Some o
             /\ o = add_rotation_y (angleOf T (speeds sceneGlobals) r) o0
             /\ (r ∉ animated sceneGlobals -> o = o0)
             /\ (forall s, (r, s) ∈ speeds sceneGlobals ->
                   Euler.y (rotation o) = MathUtils.degToRad s * T).
Proof.
  intros HP. destruct (reachable_turnAll host P HP) as (Hg & T & HT).
  split; [exact Hg|].
  exists T. split; [done|]. intros r o0 Ho0.
  exists (add_rotation_y (angleOf T (speeds sceneGlobals) r) o0).
  split; [by rewrite HT, turnAll_lookup, Ho0|]. split; [done|]. split.
  - intros Hr. rewrite (angleOf_notin _ _ _ Hr). apply add_rotation_y_0.
  - intros s Hs. rewrite (angleOf_NoDup _ _ _ _ animated_NoDup Hs).
    assert (rotationY (sceneHeap (random host)) r = Some (Euler.y (rotation o0))) as Hy
      by (unfold rotationY; by rewrite Ho0).
    apply sceneHeap_rotationY in Hy. cbn. rewrite Hy. lra.
Qed.

Lemma reachable_closed_form_witness :
  reachable exampleHost (start exampleHost)
  /\ exists T,
      heap (start exampleHost)
      = turnAll T (speeds sceneGlobals) (sceneHeap (random exampleHost)).
Proof.
  split; [apply reachable_start|].
  destruct (reachable_closed_form exampleHost (start exampleHost)
              (reachable_start exampleHost)) as (_ & T & HT & _).
  exists T. exact HT.
Defined.

Lemma reachable_links host P :
  reachable host P -> links (heap P) = links (sceneHeap (random host)).
Proof.
  intros HP. destruct (reachable_turnAll host P HP) as (_ & T & ->).
  apply links_turnAll.
Qed.

Lemma sceneHeap_consistentb random : consistentb (links (sceneHeap random)) = true.
Proof. reflexivity. Qed.

Lemma sceneHeap_rootOf random :
  Forall (fun r => rootOf 6 (map fst (links (sceneHeap random))) r = Some 0%nat)
         (seq 0 38).
Proof. repeat constructor. Qed.

(** X6.  In every state of the program the scene graph is a tree under the
    scene: it has the 38 objects the script has allocated; every object is
    among the children of its parent and is the parent of its children,
    and is listed once; the scene has no parent; and from every object
    the scene is reached by going from parent to parent, in at most five
    steps -- so everything the script has created is part of what is
    rendered. *)
Theorem scene_graph_tree host P :
  reachable host P ->
  length (heap P) = 38%nat
  /\ consistent (heap P)
  /\ (parent <$> heap P !! scene (globals P)) = Some None
  /\ forall r, (r < length (heap P))%nat ->
       rootOf 6 (map parent (heap P)) r = Some (scene (globals P)).
Proof.
  intros HP. pose proof (reachable_inv _ _ HP) as [Hg Hl].
  pose proof (reachable_links _ _ HP) as Hlinks.
  assert (map parent (heap P) = map fst (links (sceneHeap (random host)))) as Hparents.
  { rewrite <- Hlinks. unfold links. rewrite map_map. by apply map_ext. }
  split; [done|]. split.
  { apply consistentb_sound. rewrite Hlinks. apply sceneHeap_consistentb. }
  split.
  { rewrite Hg. cbn [scene sceneGlobals].
    transitivity (fst <$> links (heap P) !! 0%nat).
    - rewrite links_lookup. by destruct (heap P !! 0%nat).
    - by rewrite Hlinks. }
  intros r Hr. rewrite Hparents, Hg, Hl in *.
  pose proof (sceneHeap_rootOf (random host)) as Hall.
  rewrite Forall_forall in Hall. apply Hall. apply list_elem_of_In, in_seq. lia.
Qed.

Lemma scene_graph_tree_witness :
  reachable exampleHost (start exampleHost)
  /\ consistent (heap (start exampleHost)).
Proof.
  split; [apply reachable_start|].
  destruct (scene_graph_tree exampleHost (start exampleHost)
              (reachable_start exampleHost)) as (_ & Hc & _).
  exact Hc.
Defined.

End scene_graph.

(** ** Any table of planets *)

Section any_table.
Implicit Types (h : list Object3D) (n sg r : nat) (table : list Params.t)
  (hs : list Handle.t).

Lemma pushPlanets_run table : forall sg acc h,
  (sg < length h)%nat ->
  pushPlanets sg acc table h
  = Some (acc ++ tableHandles (length h) table, tableHeap sg table h).
Proof.
  induction table as [|params table IH]; intros sg acc h Hsg.
  - cbn. by rewrite app_nil_r.
  - cbn [pushPlanets tableHandles tableHeap]. unfold pushPlanet.
    erewrite bind_run; [|erewrite bind_run; [reflexivity|by apply createPlanet_run]].
    rewrite IH by (rewrite length_app, length_alter; lia).
    rewrite length_app, length_alter, length_planetNodes, <- app_assoc. reflexivity.
Qed.

Lemma length_tableHeap sg table : forall h,
  length (tableHeap sg table h) = (length h + tableSize table)%nat.
Proof.
  induction table as [|params table IH]; intros h; cbn [tableHeap tableSize foldr]; [lia|].
  rewrite IH, length_app, length_alter, length_planetNodes.
  fold (tableSize table). lia.
Qed.

Lemma length_tableHandles table : forall n,
  length (tableHandles n table) = length table.
Proof. induction table as [|p table IH]; intros n; cbn; [done|]. by rewrite IH. Qed.

(** The objects of a handle are among those allocated for its planet. *)
Lemma handleRefs_range n params r :
  r ∈ handleRefs (planetHandle n params) ->
  (n <= r < n + planetSize params)%nat.
Proof.
  unfold handleRefs, planetHandle, planetSize.
  cbn [Handle.orbitPivot Handle.planetGroup Handle.mesh Handle.ringMesh Handle.moonPivots].
  rewrite !elem_of_cons, elem_of_app, moonHandles_pivot.
  destruct (Params.ring params); cbn [option_list option_rect ringSize];
    rewrite ?list_elem_of_singleton, ?elem_of_nil;
    intros [->|[->|[->|[?|(i & Hi & ->)]]]]; try lia; done.
Qed.

Lemma handleRefs_NoDup n params : NoDup (handleRefs (planetHandle n params)).
Proof.
  unfold handleRefs, planetHandle.
  cbn [Handle.orbitPivot Handle.planetGroup Handle.mesh Handle.ringMesh Handle.moonPivots].
  assert (forall c, c ∈ option_list (match Params.ring params with
                                      | Some _ => Some (n + 4)%nat
                                      | None => None
                                      end)
                        ++ map MoonHandle.pivot
                             (moonHandles (n + 4 + ringSize (Params.ring params))
                                          (default [] (Params.moons params))) ->
                    (n + 4 <= c)%nat) as Hge.
  { intros c. rewrite elem_of_app, moonHandles_pivot.
    destruct (Params.ring params); cbn [option_list option_rect ringSize];
      rewrite ?list_elem_of_singleton, ?elem_of_nil; intros [?|(i & _ & ->)]; lia || done. }
  repeat (apply NoDup_cons; split;
          [rewrite ?elem_of_cons; intros Hin;
           repeat (destruct Hin as [Hin|Hin]; [lia|]); apply Hge in Hin; lia|]).
  apply NoDup_app. split_and!; [|intros c Hc|apply moonHandles_NoDup].
  - destruct (Params.ring params); cbn; [apply NoDup_singleton|constructor].
  - rewrite moonHandles_pivot. intros (i & _ & ->).
    destruct (Params.ring params); cbn [option_list option_rect ringSize] in Hc;
      [apply list_elem_of_singleton in Hc; lia|by apply elem_of_nil in Hc].
Qed.

Lemma tableRefs_range table : forall n r,
  r ∈ flat_map handleRefs (tableHandles n table) ->
  (n <= r < n + tableSize table)%nat.
Proof.
  induction table as [|params table IH]; intros n r; cbn [tableHandles flat_map tableSize foldr].
  - by rewrite elem_of_nil.
  - fold (tableSize table). rewrite elem_of_app.
    intros [Hr%handleRefs_range|Hr%IH]; lia.
Qed.

Lemma tableRefs_NoDup table : forall n,
  NoDup (flat_map handleRefs (tableHandles n table)).
Proof.
  induction table as [|params table IH]; intros n; cbn [tableHandles flat_map]; [constructor|].
  apply NoDup_app. split_and!; [apply handleRefs_NoDup| |apply IH].
  intros r Hr%handleRefs_range Hr'%tableRefs_range. lia.
Qed.

(** What [animate] writes to is part of what the handles refer to. *)
Lemma planetSpeeds_handleRefs p r :
  r ∈ map fst (planetSpeeds p) -> r ∈ handleRefs p.
Proof.
  rewrite elem_of_planetSpeeds. unfold handleRefs. rewrite !elem_of_cons, elem_of_app.
  intros [->|[->|(m & Hm & ->)]]; auto.
  do 3 right. right. apply list_elem_of_fmap. eauto.
Qed.

Lemma flat_map_elem {A B} (f : A -> list B) (l : list A) (b : B) :
  b ∈ flat_map f l <-> exists a, a ∈ l /\ b ∈ f a.
Proof.
  rewrite list_elem_of_In, in_flat_map. split; intros (a & Ha & Hb); exists a;
    split; by apply list_elem_of_In.
Qed.

Lemma animated_handleRefs hs r :
  r ∈ map fst (flat_map planetSpeeds hs) -> r ∈ flat_map handleRefs hs.
Proof.
  rewrite list_elem_of_fmap. intros (rs & -> & Hrs).
  apply flat_map_elem in Hrs as (p & Hp & Hrs). apply flat_map_elem. exists p.
  split; [done|]. apply planetSpeeds_handleRefs, list_elem_of_fmap. eauto.
Qed.

Lemma animated_NoDup_of hs :
  NoDup (flat_map handleRefs hs) -> NoDup (map fst (flat_map planetSpeeds hs)).
Proof.
  induction hs as [|p hs IH]; cbn [flat_map]; [constructor|].
  rewrite map_app, !NoDup_app. intros (Hp & Hdisj & Hhs). split_and!.
  - unfold handleRefs in Hp. unfold planetSpeeds. cbn [map fst]. rewrite map_map.
    cbn [fst]. apply NoDup_cons in Hp as [Hn1 Hp]. apply NoDup_cons in Hp as [_ Hp].
    apply NoDup_cons in Hp as [Hn2 Hp]. apply NoDup_app in Hp as (_ & _ & Hp).
    apply NoDup_cons. split.
    + intros Hin. apply Hn1. rewrite !elem_of_cons, elem_of_app in *.
      destruct Hin as [?|?]; auto.
    + apply NoDup_cons. split; [|done]. intros Hin. apply Hn2. apply elem_of_app. auto.
  - intros r Hr%planetSpeeds_handleRefs Hr'%animated_handleRefs. by apply (Hdisj r).
  - by apply IH.
Qed.

(** The body group and the ring mesh of a handle are not written to. *)
Lemma static_not_animated hs p r :
  NoDup (flat_map handleRefs hs) -> p ∈ hs ->
  r ∈ Handle.planetGroup p :: option_list (Handle.ringMesh p) ->
  r ∉ map fst (flat_map planetSpeeds hs).
Proof.
  assert (forall q, r ∈ Handle.planetGroup q :: option_list (Handle.ringMesh q) ->
            r ∈ handleRefs q) as Hstatic.
  { intros q. unfold handleRefs. rewrite !elem_of_cons, elem_of_app.
    intros [->|?]; auto. }
  induction hs as [|q hs IH]; cbn [flat_map]; [by rewrite elem_of_nil|].
  rewrite map_app, NoDup_app, elem_of_cons, elem_of_app.
  intros (Hq & Hdisj & Hhs) [->|Hp] Hr [Hin|Hin].
  - (* the handle itself *)
    unfold handleRefs in Hq. apply elem_of_planetSpeeds in Hin.
    apply NoDup_cons in Hq as [Hn1 Hq]. apply NoDup_cons in Hq as [Hn2 Hq].
    apply NoDup_cons in Hq as [Hn3 Hq]. apply NoDup_app in Hq as (_ & Hq & _).
    rewrite !elem_of_cons, ?elem_of_app in *.
    destruct Hr as [->|Hr].
    + destruct Hin as [Heq|[Heq|(m & Hm & Heq)]].
      * apply Hn1. auto.
      * apply Hn2. auto.
      * apply Hn2. right. right. rewrite Heq. apply list_elem_of_fmap. eauto.
    + destruct Hin as [->|[->|(m & Hm & ->)]].
      * apply Hn1. auto.
      * apply Hn3. auto.
      * apply (Hq _ Hr). apply list_elem_of_fmap. eauto.
  - apply (Hdisj r); [by apply Hstatic|by apply animated_handleRefs].
  - apply (Hdisj r); [by apply planetSpeeds_handleRefs|].
    apply flat_map_elem. exists p. split; [done|by apply Hstatic].
  - by apply IH.
Qed.

Lemma tableHeap_lookup_old sg table : forall h r,
  (r < length h)%nat -> r <> sg -> tableHeap sg table h !! r = h !! r.
Proof.
  induction table as [|params table IH]; intros h r Hr Hne; [done|].
  cbn [tableHeap]. rewrite IH by (rewrite ?length_app, ?length_alter; lia || done).
  rewrite lookup_app_l by (by rewrite length_alter). by rewrite list_lookup_alter_ne.
Qed.

Lemma tableHeap_sunGroup sg table : forall h,
  (sg < length h)%nat ->
  (children <$> tableHeap sg table h !! sg)
  = (fun cs => cs ++ map Handle.orbitPivot (tableHandles (length h) table))
      <$> (children <$> h !! sg).
Proof.
  induction table as [|params table IH]; intros h Hsg.
  - cbn. destruct (h !! sg); cbn; [|done]. by rewrite app_nil_r.
  - cbn [tableHeap tableHandles map]. rewrite IH by (rewrite length_app, length_alter; lia).
    rewrite lookup_app_l by (by rewrite length_alter).
    rewrite list_lookup_alter_eq, length_app, length_alter, length_planetNodes.
    destruct (h !! sg); cbn; [|done]. by rewrite <- app_assoc.
Qed.

Lemma tableHandles_rows table : forall n,
  Forall2 (fun handle params =>
             Handle.name handle = default "planet"%string (Params.name params)
             /\ Handle.orbitalSpeed handle = default 0.5 (Params.orbitalSpeed params)
             /\ Handle.spinSpeed handle = default 15 (Params.spinSpeed params)
             /\ map MoonHandle.speed (Handle.moonPivots handle)
                = map Moon.orbitalSpeed (default [] (Params.moons params))
             /\ (is_Some (Handle.ringMesh handle) <-> is_Some (Params.ring params)))
          (tableHandles n table) table.
Proof.
  induction table as [|params table IH]; intros n; constructor; [|apply IH].
  split_and!; [done..|apply moonHandles_speed|].
  cbn. destruct (Params.ring params); split; intros [? ?]; eauto; done.
Qed.



(** X8.  The handles of any table can be animated: whatever the table, on
    the heap that pushing its planets leaves, and for a sun mesh that
    existed before, the rotation updates of a tick succeed; they turn the
    sun by [degToRad(2.0) * dt], each orbit pivot, mesh and moon pivot by
    the angle of its own speed, and leave the body group and the ring mesh
    of every handle as they are. *)
Theorem updateRotations_any_table sunGroup table h g dt hs h' :
  (sunGroup < length h)%nat ->
  (sun g < length h)%nat ->
  pushPlanets sunGroup [] table h = Some (hs, h') ->
  planets g = hs ->
  exists h'',
    updateRotations g dt h' = Some (tt, h'')
    /\ turnsBy h' h'' (sun g) (MathUtils.degToRad 2.0 * dt)
    /\ forall p, p ∈ hs ->
         turnsBy h' h'' (Handle.orbitPivot p)
                 (MathUtils.degToRad (Handle.orbitalSpeed p) * dt)
         /\ turnsBy h' h'' (Handle.mesh p)
                    (MathUtils.degToRad (Handle.spinSpeed p) * dt)
         /\ (forall m, m ∈ Handle.moonPivots p ->
               turnsBy h' h'' (MoonHandle.pivot m)
                       (MathUtils.degToRad (MoonHandle.speed m) * dt))
         /\ h'' !! Handle.planetGroup p = h' !! Handle.planetGroup p
         /\ (forall r, Handle.ringMesh p = Some r -> h'' !! r = h' !! r).
Proof.
  intros Hsg Hsun E Hg.
  rewrite pushPlanets_run in E by done. cbn [app] in E. injection E as <- <-.
  pose proof (tableRefs_NoDup table (length h)) as Hnd.
  assert (NoDup (animated g)) as Hndg.
  { unfold animated, speeds. cbn [map fst]. rewrite Hg. apply NoDup_cons. split.
    - intros Hin%animated_handleRefs%tableRefs_range. lia.
    - by apply animated_NoDup_of. }
  assert (Forall (fun r => (r < length (tableHeap sunGroup table h))%nat) (animated g))
    as Hv.
  { unfold animated, speeds. cbn [map fst]. rewrite Hg, length_tableHeap.
    constructor; [lia|]. apply Forall_forall.
    intros r Hr%animated_handleRefs%tableRefs_range. lia. }
  eexists. split; [by apply updateRotations_run|].
  assert (forall r s, (r, s) ∈ speeds g ->
            turnsBy (tableHeap sunGroup table h)
                    (turnAll dt (speeds g) (tableHeap sunGroup table h)) r
                    (MathUtils.degToRad s * dt)) as Hturn
    by (intros r s; by apply turnsBy_speeds).
  split.
  { apply Hturn. unfold speeds. apply elem_of_cons. by left. }
  intros p Hp. rewrite <- Hg in Hp.
  assert (forall r, r ∈ Handle.planetGroup p :: option_list (Handle.ringMesh p) ->
            turnAll dt (speeds g) (tableHeap sunGroup table h) !! r
            = tableHeap sunGroup table h !! r) as Hstatic.
  { intros r Hr. apply turnAll_lookup_notin. unfold animated, speeds. cbn [map fst].
    apply not_elem_of_cons. split.
    - intros ->. rewrite Hg in Hp.
      assert (sun g ∈ flat_map handleRefs (tableHandles (length h) table)) as Hin.
      { apply flat_map_elem. exists p. split; [done|]. unfold handleRefs.
        rewrite !elem_of_cons, elem_of_app in *. destruct Hr as [->|?]; auto. }
      apply tableRefs_range in Hin. lia.
    - rewrite Hg in *. by apply (static_not_animated _ p). }
  split_and!.
  - by apply Hturn, orbitPivot_speeds.
  - by apply Hturn, mesh_speeds.
  - intros m Hm. by apply Hturn, (moonPivot_speeds _ p).
  - apply Hstatic. apply elem_of_cons. by left.
  - intros r Hr. apply Hstatic. rewrite Hr. apply elem_of_cons. right.
    by apply list_elem_of_singleton.
Qed.

Lemma updateRotations_any_table_witness :
  (0 < length [object3D Group; object3D Group])%nat
  /\ (1 < length [object3D Group; object3D Group])%nat
  /\ exists hs h' h'',
      pushPlanets 0 [] [earth; saturn] [object3D Group; object3D Group] = Some (hs, h')
      /\ updateRotations (mkGlobals 0 0 0 0 1 hs) 0.5 h' = Some (tt, h'')
      /\ turnsBy h' h'' 1 (MathUtils.degToRad 2.0 * 0.5).
Proof.
  split; [cbn; lia|]. split; [cbn; lia|].
  exists (tableHandles 2 [earth; saturn]),
         (tableHeap 0 [earth; saturn] [object3D Group; object3D Group]).
  assert (pushPlanets 0 [] [earth; saturn] [object3D Group; object3D Group]
          = Some (tableHandles 2 [earth; saturn],
                  tableHeap 0 [earth; saturn] [object3D Group; object3D Group])) as E
    by (apply pushPlanets_run; cbn; lia).
  destruct (updateRotations_any_table 0 [earth; saturn] [object3D Group; object3D Group]
              (mkGlobals 0 0 0 0 1 (tableHandles 2 [earth; saturn])) 0.5 _ _
              ltac:(cbn; lia) ltac:(cbn; lia) E eq_refl) as (h'' & Eu & Hsun & _).
  exists h''. split; [exact E|]. split; [exact Eu | exact Hsun].
Defined.


End any_table.

(** ** Sequences of ticks *)

Section ticks.
Implicit Types (P : Program) (dts : list R).

Lemma run_turnAll host dts : forall P P',
  run host dts P = Some P' ->
  globals P' = globals P
  /\ heap P' = turnAll (total dts) (speeds (globals P)) (heap P)
  /\ WebGLRenderer.frames (renderer P')
     = (WebGLRenderer.frames (renderer P) + length dts)%nat.
Proof.
  induction dts as [|dt dts IH]; intros P P' E.
  - injection E as <-.
    split_and!; [done | cbn [total foldr]; by rewrite turnAll_0 | cbn; lia].
  - cbn [run] in E. destruct (animate host dt P) as [P1|] eqn:E1; [|done].
    cbn in E. destruct (IH _ _ E) as (Hg & Hh & Hf).
    assert (WebGLRenderer.frames (renderer P1)
            = S (WebGLRenderer.frames (renderer P))) as Hf1.
    { unfold animate in E1.
      destruct (updateRotations (globals P) dt (heap P)) as [[u h1]|]; [|done].
      cbn in E1. by injection E1 as <-. }
    apply animate_inv in E1 as (_ & Hg1 & Hh1).
    rewrite Hg, Hh, Hf, Hg1, Hh1, Hf1, turnAll_turnAll. cbn [total foldr length].
    split_and!; [done..|lia].
Qed.

(** X9.  Any number of ticks amounts to one tick of their total duration:
    after a run of ticks the scene graph is the one before, with every
    node that [animate] writes to turned by its speed times the sum of the
    elapsed times -- however the time is cut into ticks.  One frame is
    rendered per tick; and a run whose elapsed times add up to 0, in
    particular a first tick with [dt = 0], leaves the scene graph as it
    was. *)
Theorem run_total host dts : forall P P',
  run host dts P = Some P' ->
  globals P' = globals P
  /\ heap P' = turnAll (total dts) (speeds (globals P)) (heap P)
  /\ WebGLRenderer.frames (renderer P')
     = (WebGLRenderer.frames (renderer P) + length dts)%nat
  /\ (forall r, rotationY (heap P') r
                = (fun y => y + angleOf (total dts) (speeds (globals P)) r)
                    <$> rotationY (heap P) r)
  /\ (total dts = 0 -> heap P' = heap P).
Proof.
  intros P P' E. destruct (run_turnAll host dts P P' E) as (Hg & Hh & Hf).
  split_and!; [done..| |].
  - intros r. unfold rotationY. rewrite Hh, turnAll_lookup.
    by destruct (heap P !! r).
  - intros H0. by rewrite Hh, H0, turnAll_0.
Qed.

Lemma run_total_witness :
  exists P',
    run exampleHost [0; 0.25; 0.5] (start exampleHost) = Some P'
    /\ heap P' = turnAll (total [0; 0.25; 0.5]) (speeds sceneGlobals)
                         (sceneHeap (random exampleHost)).
Proof.
  destruct (run_reachable exampleHost [0; 0.25; 0.5] (start exampleHost)
              (reachable_start exampleHost)) as (P' & E & _).
  exists P'. split; [exact E|].
  destruct (run_total exampleHost [0; 0.25; 0.5] (start exampleHost) P' E)
    as (_ & Hh & _).
  exact Hh.
Defined.

(** X10.  Speeds are in degrees per second: in a state of the program,
    ticks whose elapsed times add up to [360 / orbitalSpeed] seconds turn
    the orbit pivot of the planet by one full turn, [2 PI]. *)
Theorem orbital_period host P P' p dts :
  reachable host P ->
  p ∈ planets (globals P) ->
  Handle.orbitalSpeed p <> 0 ->
  total dts = 360 / Handle.orbitalSpeed p ->
  run host dts P = Some P' ->
  turnsBy (heap P) (heap P') (Handle.orbitPivot p) (2 * PI).
Proof.
  intros HP Hp Hs Hdts E. apply run_turnAll in E as (_ & -> & _).
  replace (2 * PI)
    with (MathUtils.degToRad (Handle.orbitalSpeed p) * total dts).
  - apply turnsBy_speeds;
      [by apply reachable_NoDup in HP | by apply reachable_valid in HP
      | by apply orbitPivot_speeds].
  - rewrite Hdts. unfold MathUtils.degToRad, MathUtils.DEG2RAD. by field.
Qed.

Lemma orbital_period_witness :
  reachable exampleHost (start exampleHost)
  /\ planetHandle 11 venus ∈ planets (globals (start exampleHost))
  /\ Handle.orbitalSpeed (planetHandle 11 venus) <> 0
  /\ total [4; 6 + 2 / 7] = 360 / Handle.orbitalSpeed (planetHandle 11 venus)
  /\ exists P',
      run exampleHost [4; 6 + 2 / 7] (start exampleHost) = Some P'
      /\ turnsBy (heap (start exampleHost)) (heap P') 11 (2 * PI).
Proof.
  assert (planetHandle 11 venus ∈ planets (globals (start exampleHost))) as Hp.
  { cbn. rewrite !elem_of_cons. auto 10. }
  assert (Handle.orbitalSpeed (planetHandle 11 venus) <> 0) as Hs by (cbn; lra).
  assert (total [4; 6 + 2 / 7] = 360 / Handle.orbitalSpeed (planetHandle 11 venus))
    as Ht by (cbn; lra).
  split; [apply reachable_start|]. split; [exact Hp|]. split; [exact Hs|].
  split; [exact Ht|].
  destruct (run_reachable exampleHost [4; 6 + 2 / 7] (start exampleHost)
              (reachable_start exampleHost)) as (P' & E & _).
  exists P'. split; [exact E|].
  exact (orbital_period exampleHost (start exampleHost) P' (planetHandle 11 venus)
           [4; 6 + 2 / 7] (reachable_start exampleHost) Hp Hs Ht E).
Defined.

End ticks.

(** ** The event loop *)

Section event_loop.
Implicit Types (st : Running) (events : list Event) (now told : R).

Lemma last_cons_default {A} (x d : A) (l : list A) :
  default d (last (x :: l)) = default x (last l).
Proof.
  revert x d. induction l as [|y l IH]; intros x d; [done|].
  change (last (x :: y :: l)) with (last (y :: l)). by rewrite (IH y d), (IH y x).
Qed.

Lemma frames_animate host dt P P' :
  animate host dt P = Some P' ->
  WebGLRenderer.frames (renderer P') = S (WebGLRenderer.frames (renderer P)).
Proof.
  unfold animate. destruct (updateRotations (globals P) dt (heap P)) as [[u h1]|]; [|done].
  cbn. by intros [= <-].
Qed.

(** Once the clock runs, the events turn the scene by the time from the
    refresh before them to the last refresh among them. *)
Lemma play_running host events : forall st told,
  Clock.running (clock st) = true ->
  Clock.oldTime (clock st) = told ->
  reachable host (program st) ->
  exists st',
    play host events st = Some st'
    /\ reachable host (program st')
    /\ heap (program st')
       = turnAll ((default told (last (refreshTimes events)) - told) / 1000)
                 (speeds sceneGlobals) (heap (program st))
    /\ WebGLRenderer.frames (renderer (program st'))
       = (WebGLRenderer.frames (renderer (program st)) + length (refreshTimes events))%nat.
Proof.
  induction events as [|[now|w h] events IH]; intros st told Hrun Hold HP.
  - exists st. change (refreshTimes []) with (@nil R). cbn [play last default length].
    replace ((told - told) / 1000) with 0 by lra. rewrite turnAll_0.
    split_and!; [done..|lia].
  - cbn [play react]. unfold frame, Clock.getDelta. rewrite Hrun, andb_false_r, Hold.
    cbn [fst snd].
    destruct (animate_run host ((now - told) / 1000) (program st)
                (reachable_valid _ _ HP)) as [P1 E1].
    rewrite E1. cbn [mbind option_bind].
    assert (reachable host P1) as HP1 by (by eapply reachable_animate).
    destruct (IH (mkRunning P1 (Clock.mk (Clock.autoStart (clock st))
                                         (Clock.startTime (clock st)) now
                                         (Clock.elapsedTime (clock st) + (now - told) / 1000)
                                         true)) now eq_refl eq_refl HP1)
      as (st' & E' & HP' & Hh & Hf).
    exists st'. split; [done|]. split; [done|].
    change (refreshTimes (Refresh now :: events)) with (now :: refreshTimes events).
    rewrite last_cons_default. cbn [program] in Hh, Hf.
    rewrite Hh, Hf, (frames_animate _ _ _ _ E1).
    apply animate_inv in E1 as (_ & _ & ->).
    pose proof (reachable_inv _ _ HP) as [-> _].
    rewrite turnAll_turnAll. cbn [length]. split; [|lia]. f_equal. lra.
  - cbn [play react mbind option_bind].
    destruct (IH (mkRunning (onResize w h (program st)) (clock st)) told Hrun Hold
                 (reachable_resize _ _ _ _ HP)) as (st' & E' & HP' & Hh & Hf).
    exists st'. split_and!; done.
Qed.

(** The script's own call of [animate] starts the clock and renders the
    first frame; it turns nothing. *)
Lemma boot_run host t0 :
  exists P1,
    boot host t0 = Some (mkRunning P1 (Clock.start t0 Clock.create))
    /\ animate host 0 (start host) = Some P1
    /\ reachable host P1
    /\ heap P1 = sceneHeap (random host)
    /\ WebGLRenderer.frames (renderer P1) = 1%nat.
Proof.
  destruct (animate_run host 0 (start host) (reachable_valid _ _ (reachable_start host)))
    as [P1 E1].
  exists P1. split_and!.
  - unfold boot. rewrite main_run. cbn [mbind option_bind]. unfold frame.
    cbn [clock program Clock.getDelta Clock.create Clock.autoStart Clock.running
         negb andb fst snd].
    by rewrite E1.
  - done.
  - eapply reachable_animate; [apply reachable_start|done].
  - apply animate_inv in E1 as (_ & _ & ->). by rewrite turnAll_0.
  - by rewrite (frames_animate _ _ _ _ E1).
Qed.

(** X11.  The animation does not depend on the frame rate.  The script
    renders its first frame itself, at the time [t0] of its call of
    [animate], which starts the clock.  Whatever the events after that --
    display refreshes at any times and resizes, in any order -- the script
    reacts to all of them, renders one more frame per refresh, and leaves
    the scene graph as the scene it has built with every animated node
    turned by its speed times the seconds from [t0] to the last refresh:
    each orbit pivot is at [degToRad(orbitalSpeed)] times that time.  Two
    sequences of events whose last refresh is as long after [t0] leave the
    same scene graph. *)
Theorem play_frame_rate_independent host t0 events events' :
  exists st0 st st',
    boot host t0 = Some st0
    /\ play host events st0 = Some st
    /\ play host events' st0 = Some st'
    /\ heap (program st)
       = turnAll (elapsed t0 (refreshTimes events)) (speeds sceneGlobals)
                 (sceneHeap (random host))
    /\ WebGLRenderer.frames (renderer (program st)) = S (length (refreshTimes events))
    /\ (forall p, p ∈ planets sceneGlobals ->
          rotationY (heap (program st)) (Handle.orbitPivot p)
          = Some (MathUtils.degToRad (Handle.orbitalSpeed p)
                  * elapsed t0 (refreshTimes events)))
    /\ (elapsed t0 (refreshTimes events') = elapsed t0 (refreshTimes events) ->
        heap (program st') = heap (program st)).
Proof.
  destruct (boot_run host t0) as (P1 & Eboot & _ & HP1 & Hh1 & Hf1).
  exists (mkRunning P1 (Clock.start t0 Clock.create)).
  destruct (play_running host events (mkRunning P1 (Clock.start t0 Clock.create)) t0
              eq_refl eq_refl HP1) as (st & E & _ & Hh & Hf).
  destruct (play_running host events' (mkRunning P1 (Clock.start t0 Clock.create)) t0
              eq_refl eq_refl HP1) as (st' & E' & _ & Hh' & _).
  exists st, st'. cbn [program] in Hh, Hh', Hf. rewrite Hh1 in Hh, Hh'. rewrite Hf1 in Hf.
  fold (elapsed t0 (refreshTimes events)) in Hh.
  fold (elapsed t0 (refreshTimes events')) in Hh'.
  split; [done|]. split; [done|]. split; [done|].
  split; [done|]. split; [by rewrite Hf|]. split.
  - intros p Hp. rewrite Hh.
    destruct (turnsBy_speeds (elapsed t0 (refreshTimes events)) sceneGlobals
                (sceneHeap (random host)) (Handle.orbitPivot p) (Handle.orbitalSpeed p)
                animated_NoDup animated_valid (orbitPivot_speeds _ _ Hp))
      as (y & Hy & ->).
    apply sceneHeap_rotationY in Hy as ->. apply (f_equal Some). lra.
  - intros Hspan. by rewrite Hh, Hh', Hspan.
Qed.

(** The script starts at time 0 and the display refreshes at 100 and 1100:
    three frames, and 1.1 seconds of turning; as much as with one refresh
    at 1100. *)
Example play_two_refreshes host :
  exists st0 st,
    boot host 0 = Some st0
    /\ play host [Refresh 100; Resized 640 480; Refresh 1100] st0 = Some st
    /\ WebGLRenderer.frames (renderer (program st)) = 3%nat
    /\ heap (program st)
       = turnAll 1.1 (speeds sceneGlobals) (sceneHeap (random host))
    /\ elapsed 0 (refreshTimes [Refresh 100; Resized 640 480; Refresh 1100])
       = elapsed 0 (refreshTimes [Refresh 1100]).
Proof.
  destruct (boot_run host 0) as (P1 & Eboot & _ & HP1 & Hh1 & Hf1).
  destruct (play_running host [Refresh 100; Resized 640 480; Refresh 1100]
              (mkRunning P1 (Clock.start 0 Clock.create)) 0 eq_refl eq_refl HP1)
    as (st & E & _ & Hh & Hf).
  exists (mkRunning P1 (Clock.start 0 Clock.create)), st.
  cbn [program] in Hh, Hf. rewrite Hh1 in Hh. rewrite Hf1 in Hf.
  split; [done|]. split; [done|]. split; [exact Hf|]. split.
  - rewrite Hh. f_equal. cbn. lra.
  - unfold elapsed. cbn. lra.
Qed.

End event_loop.

(** ** The viewport *)

Section viewport.
Implicit Types (P : Program) (st : Running) (events : list Event) (w h : R).

Lemma viewportIs_start host :
  viewportIs host (innerWidth host) (innerHeight host) (start host).
Proof. unfold viewportIs. split_and!; reflexivity. Qed.

Lemma viewportIs_onResize host w0 h0 w h P :
  viewportIs host w0 h0 P -> viewportIs host w h (onResize w h P).
Proof.
  intros (_ & _ & Hfov & Hnear & Hfar & _ & _ & Hratio & _).
  unfold viewportIs. cbn. rewrite Hratio. split_and!; done.
Qed.

Lemma viewportIs_animate host w h dt P P' :
  animate host dt P = Some P' -> viewportIs host w h P -> viewportIs host w h P'.
Proof.
  unfold animate. destruct (updateRotations (globals P) dt (heap P)) as [[u h1]|]; [|done].
  cbn. intros [= <-]. unfold viewportIs. cbn. done.
Qed.

Lemma play_viewportIs host events : forall st st' w0 h0,
  play host events st = Some st' ->
  viewportIs host w0 h0 (program st) ->
  viewportIs host (fst (default (w0, h0) (lastResize events)))
             (snd (default (w0, h0) (lastResize events))) (program st').
Proof.
  induction events as [|[now|w h] events IH]; intros st st' w0 h0 E Hv.
  - injection E as <-. done.
  - cbn [play react] in E. unfold frame in E.
    destruct (animate host (Clock.getDelta now (clock st)).1 (program st))
      as [P1|] eqn:E1; [|done].
    cbn [mbind option_bind] in E.
    change (lastResize (Refresh now :: events)) with (lastResize events).
    apply (IH _ _ _ _ E). cbn [program]. by eapply viewportIs_animate.
  - cbn [play react mbind option_bind] in E.
    change (lastResize (Resized w h :: events))
      with (last ((w, h) :: omap (fun e => match e with
                                           | Resized w h => Some (w, h)
                                           | Refresh _ => None
                                           end) events)).
    rewrite last_cons_default. apply (IH _ _ _ _ E). cbn [program].
    by eapply viewportIs_onResize.
Qed.

(** X12.  The camera and the surface follow the window.  Whatever the
    time at which the script has started and the events after that, the
    aspect of the camera and the
    size of the renderer are those of the last resize event, or of the
    window at the start when there was none; the projection is the one of
    that aspect; the field of view and the clipping planes are those of
    the start; and the surface is the size times the pixel ratio
    [min(devicePixelRatio, 2)], which is at most 2. *)
Theorem play_viewport host t0 events :
  exists st0 st,
    boot host t0 = Some st0
    /\ play host events st0 = Some st
    /\ viewportIs host
         (fst (default (innerWidth host, innerHeight host) (lastResize events)))
         (snd (default (innerWidth host, innerHeight host) (lastResize events)))
         (program st)
    /\ WebGLRenderer.pixelRatio (renderer (program st)) <= 2
    /\ WebGLRenderer.pixelRatio (renderer (program st)) <= devicePixelRatio host.
Proof.
  destruct (boot_run host t0) as (P1 & Eboot & E1 & HP1 & _).
  exists (mkRunning P1 (Clock.start t0 Clock.create)).
  destruct (play_running host events (mkRunning P1 (Clock.start t0 Clock.create)) t0
              eq_refl eq_refl HP1) as (st & E & _).
  exists st. split; [done|]. split; [done|].
  pose proof (play_viewportIs host events _ _ _ _ E
                (viewportIs_animate _ _ _ _ _ _ E1 (viewportIs_start host))) as Hv.
  split; [exact Hv|].
  destruct Hv as (_ & _ & _ & _ & _ & _ & _ & -> & _).
  split; [apply Rmin_r | apply Rmin_l].
Qed.

(** X13.  A resize event and a tick can come in either order: the tick
    succeeds after the resize exactly when it succeeds before it, and the
    two orders leave the same state. *)
Theorem onResize_animate_commute host w h dt P :
  animate host dt (onResize w h P) = onResize w h <$> animate host dt P.
Proof.
  unfold animate. cbn [globals heap onResize].
  destruct (updateRotations (globals P) dt (heap P)) as [[u h1]|]; reflexivity.
Qed.

(** Of two resize events in a row only the last one counts; in
    particular handling the same event twice is handling it once. *)
Lemma onResize_last w h w' h' P :
  onResize w h (onResize w' h' P) = onResize w h P
  /\ onResize w h (onResize w h P) = onResize w h P.
Proof. split; reflexivity. Qed.

End viewport.

(** ** Numbers stored in a [Float32Array] *)

Section float32.
Import Float32.

Lemma powerRZ_2_mono (a b : Z) : (a <= b)%Z -> powerRZ 2 a <= powerRZ 2 b.
Proof.
  intros Hab. rewrite !powerRZ_Rpower by lra.
  apply Rle_Rpower; [lra|by apply IZR_le].
Qed.

Lemma ln_powerRZ_2 (e : Z) : ln (powerRZ 2 e) = IZR e * ln 2.
Proof. rewrite powerRZ_Rpower by lra. unfold Rpower. apply ln_exp. Qed.

Lemma ln_2_pos : 0 < ln 2.
Proof. pose proof ln_lt_2. lra. Qed.

Lemma exponent_le (x : R) (k : Z) :
  x <> 0 -> Rabs x < powerRZ 2 (k + 1) -> (exponent x <= k)%Z.
Proof.
  intros Hx Hlt. pose proof (Rabs_pos_lt x Hx) as Hpos. pose proof ln_2_pos as Hln2.
  assert (ln (Rabs x) / ln 2 < IZR (k + 1)) as Hy.
  { apply (Rmult_lt_reg_r (ln 2)); [done|].
    replace (ln (Rabs x) / ln 2 * ln 2) with (ln (Rabs x)) by (field; lra).
    rewrite <- ln_powerRZ_2. by apply ln_increasing. }
  destruct (base_Int_part (ln (Rabs x) / ln 2)) as [Hfloor _].
  assert (IZR (exponent x) < IZR (k + 1)) as Hlt' by (unfold exponent; lra).
  apply lt_IZR in Hlt'. lia.
Qed.

Lemma exponent_eq (x : R) (e : Z) :
  powerRZ 2 e <= Rabs x < powerRZ 2 (e + 1) -> exponent x = e.
Proof.
  intros [Hle Hlt]. pose proof ln_2_pos as Hln2.
  pose proof (powerRZ_lt 2 e ltac:(lra)) as Hpos.
  assert (0 < Rabs x) as Hx by lra.
  symmetry. apply Int_part_spec.
  assert (IZR e * ln 2 <= ln (Rabs x)) as H1.
  { rewrite <- ln_powerRZ_2. destruct Hle as [Hle|<-]; [|lra].
    left. by apply ln_increasing. }
  assert (ln (Rabs x) < IZR (e + 1) * ln 2) as H2.
  { rewrite <- ln_powerRZ_2. by apply ln_increasing. }
  rewrite plus_IZR in H2. split.
  - apply (Rmult_lt_reg_r (ln 2)); [done|].
    replace ((ln (Rabs x) / ln 2 - 1) * ln 2) with (ln (Rabs x) - ln 2) by (field; lra).
    lra.
  - apply (Rmult_le_reg_r (ln 2)); [done|].
    replace (ln (Rabs x) / ln 2 * ln 2) with (ln (Rabs x)) by (field; lra). done.
Qed.

Lemma nearestEven_error (t : R) : Rabs (IZR (nearestEven t) - t) <= 1 / 2.
Proof.
  unfold nearestEven. destruct (base_Int_part t) as [H1 H2].
  repeat (destruct (Rlt_dec _ _) || destruct (Z.even _));
    rewrite ?plus_IZR; apply Rabs_le; lra.
Qed.

Lemma nearestEven_IZR (n : Z) : nearestEven (IZR n) = n.
Proof.
  unfold nearestEven.
  replace (Int_part (IZR n)) with n by (apply Int_part_spec; lra).
  destruct (Rlt_dec _ _) as [|Hn]; [done|]. exfalso. apply Hn. lra.
Qed.

Lemma ulp_pos (x : R) : 0 < ulp x.
Proof. apply powerRZ_lt. lra. Qed.

(** The error of rounding: at most half the gap of the format. *)
Lemma fround_error (x : R) (k : Z) :
  (-126 <= k)%Z -> Rabs x < powerRZ 2 (k + 1) ->
  Rabs (fround x - x) <= powerRZ 2 (k - 24).
Proof.
  intros Hk Hlt. unfold fround. destruct (Req_dec_T x 0) as [->|Hx].
  - replace (0 - 0) with 0 by lra. rewrite Rabs_R0. apply powerRZ_le. lra.
  - pose proof (ulp_pos x) as Hu.
    pose proof (nearestEven_error (x / ulp x)) as Herr.
    replace (IZR (nearestEven (x / ulp x)) * ulp x - x)
      with ((IZR (nearestEven (x / ulp x)) - x / ulp x) * ulp x) by (field; lra).
    rewrite Rabs_mult, (Rabs_pos_eq (ulp x)) by lra.
    assert (ulp x <= powerRZ 2 (k - 23)) as Hulp.
    { apply powerRZ_2_mono. pose proof (exponent_le x k Hx Hlt). lia. }
    replace (k - 23)%Z with ((k - 24) + 1)%Z in Hulp by lia.
    rewrite powerRZ_add in Hulp by lra. change (powerRZ 2 1) with (2 * 1) in Hulp.
    pose proof (Rabs_pos (IZR (nearestEven (x / ulp x)) - x / ulp x)) as Hpos.
    pose proof (Rmult_le_compat _ _ _ _ Hpos (Rlt_le _ _ Hu) Herr Hulp). lra.
Qed.

(** What is stored is a multiple of the gap. *)
Lemma fround_of_multiple (x : R) (e : Z) (n : Z) :
  powerRZ 2 e <= Rabs x < powerRZ 2 (e + 1) -> (-126 <= e)%Z ->
  x = IZR n * powerRZ 2 (e - 23) -> fround x = x.
Proof.
  intros Hx He Hn. unfold fround. destruct (Req_dec_T x 0) as [->|Hx0]; [done|].
  unfold ulp. rewrite (exponent_eq x e Hx), Z.max_l by lia.
  pose proof (powerRZ_lt 2 (e - 23) ltac:(lra)) as Hpos.
  replace (x / powerRZ 2 (e - 23)) with (IZR n) by (rewrite Hn; field; lra).
  by rewrite nearestEven_IZR.
Qed.

Example fround_800 : fround 800 = 800.
Proof.
  apply (fround_of_multiple 800 9 13107200).
  - rewrite Rabs_pos_eq by lra. simpl. lra.
  - lia.
  - simpl. lra.
Qed.

(** A number just below 800 is stored as 800. *)
Example fround_below_800 : fround (800 - 500 / 2 ^ 26) = 800.
Proof.
  assert (powerRZ 2 9 <= Rabs (800 - 500 / 2 ^ 26) < powerRZ 2 (9 + 1)) as He
    by (rewrite Rabs_pos_eq; simpl; lra).
  unfold fround. destruct (Req_dec_T _ 0) as [E|_]; [simpl in E; lra|].
  unfold ulp. rewrite (exponent_eq _ 9 He), Z.max_l by lia.
  unfold nearestEven.
  replace (Int_part ((800 - 500 / 2 ^ 26) / powerRZ 2 (9 - 23))) with 13107199%Z
    by (apply Int_part_spec; simpl; lra).
  destruct (Rlt_dec _ _) as [H|_]; [simpl in H; lra|].
  destruct (Rlt_dec _ _) as [_|H]; [|exfalso; apply H; simpl; lra].
  change (13107199 + 1)%Z with 13107200%Z. change (9 - 23)%Z with (-14)%Z.
  change (powerRZ 2 (-14)) with (/ 2 ^ 14). simpl pow. lra.
Qed.

Lemma dot3_le (a1 a2 a3 e1 e2 e3 : R) :
  a1 * e1 + a2 * e2 + a3 * e3
  <= sqrt (a1 * a1 + a2 * a2 + a3 * a3) * sqrt (e1 * e1 + e2 * e2 + e3 * e3).
Proof.
  set (A := a1 * a1 + a2 * a2 + a3 * a3). set (E := e1 * e1 + e2 * e2 + e3 * e3).
  assert (0 <= A) as HA by (unfold A; nra).
  assert (0 <= E) as HE by (unfold E; nra).
  rewrite <- sqrt_mult by done.
  destruct (Rle_dec (a1 * e1 + a2 * e2 + a3 * e3) 0) as [Hneg|Hpos].
  - pose proof (sqrt_pos (A * E)). lra.
  - rewrite <- (sqrt_square (a1 * e1 + a2 * e2 + a3 * e3)) by lra.
    apply sqrt_le_1_alt. unfold A, E.
    pose proof (Rle_0_sqr (a1 * e2 - a2 * e1)) as H1.
    pose proof (Rle_0_sqr (a1 * e3 - a3 * e1)) as H2.
    pose proof (Rle_0_sqr (a2 * e3 - a3 * e2)) as H3.
    unfold Rsqr in H1, H2, H3. nra.
Qed.

Lemma norm3_triangle (a1 a2 a3 e1 e2 e3 : R) :
  sqrt ((a1 + e1) * (a1 + e1) + (a2 + e2) * (a2 + e2) + (a3 + e3) * (a3 + e3))
  <= sqrt (a1 * a1 + a2 * a2 + a3 * a3) + sqrt (e1 * e1 + e2 * e2 + e3 * e3).
Proof.
  pose proof (dot3_le a1 a2 a3 e1 e2 e3) as Hdot.
  set (A := a1 * a1 + a2 * a2 + a3 * a3) in *.
  set (E := e1 * e1 + e2 * e2 + e3 * e3) in *.
  assert (0 <= A) as HA by (unfold A; nra).
  assert (0 <= E) as HE by (unfold E; nra).
  pose proof (sqrt_pos A) as HsA. pose proof (sqrt_pos E) as HsE.
  pose proof (sqrt_sqrt A HA) as HAA. pose proof (sqrt_sqrt E HE) as HEE.
  rewrite <- (sqrt_square (sqrt A + sqrt E)) by lra.
  apply sqrt_le_1_alt. unfold A, E in *. nra.
Qed.

Lemma norm3_small (e1 e2 e3 eps : R) :
  Rabs e1 <= eps -> Rabs e2 <= eps -> Rabs e3 <= eps ->
  sqrt (e1 * e1 + e2 * e2 + e3 * e3) <= 2 * eps.
Proof.
  intros H1 H2 H3.
  assert (0 <= eps) as Heps by (pose proof (Rabs_pos e1); lra).
  assert (forall e, Rabs e <= eps -> e * e <= eps * eps) as Hsq.
  { intros e He. assert (- eps <= e <= eps) as Hb
      by (unfold Rabs in He; destruct (Rcase_abs e); lra).
    pose proof (Rmult_le_pos (eps - e) (eps + e) ltac:(lra) ltac:(lra)). lra. }
  pose proof (Hsq _ H1). pose proof (Hsq _ H2). pose proof (Hsq _ H3).
  rewrite <- (sqrt_square (2 * eps)) by lra.
  apply sqrt_le_1_alt. nra.
Qed.

(** Moving each coordinate by at most [eps] moves the length by at most
    [2 eps]. *)
Lemma norm3_perturbed (a1 a2 a3 b1 b2 b3 eps : R) :
  Rabs (b1 - a1) <= eps -> Rabs (b2 - a2) <= eps -> Rabs (b3 - a3) <= eps ->
  Rabs (sqrt (b1 * b1 + b2 * b2 + b3 * b3) - sqrt (a1 * a1 + a2 * a2 + a3 * a3))
  <= 2 * eps.
Proof.
  intros H1 H2 H3.
  pose proof (norm3_small _ _ _ _ H1 H2 H3) as He.
  pose proof (norm3_triangle a1 a2 a3 (b1 - a1) (b2 - a2) (b3 - a3)) as Hup.
  replace (a1 + (b1 - a1)) with b1 in Hup by lra.
  replace (a2 + (b2 - a2)) with b2 in Hup by lra.
  replace (a3 + (b3 - a3)) with b3 in Hup by lra.
  pose proof (norm3_triangle b1 b2 b3 (a1 - b1) (a2 - b2) (a3 - b3)) as Hdown.
  replace (b1 + (a1 - b1)) with a1 in Hdown by lra.
  replace (b2 + (a2 - b2)) with a2 in Hdown by lra.
  replace (b3 + (a3 - b3)) with a3 in Hdown by lra.
  replace ((a1 - b1) * (a1 - b1) + (a2 - b2) * (a2 - b2) + (a3 - b3) * (a3 - b3))
    with ((b1 - a1) * (b1 - a1) + (b2 - a2) * (b2 - a2) + (b3 - a3) * (b3 - a3))
    in Hdown by ring.
  apply Rabs_le. lra.
Qed.

End float32.

(** ** The stars *)

Section stars.

#[local] Transparent starPositions.

Lemma flat_map_triples {A} (f : nat -> list A) :
  (forall i, length (f i) = 3%nat) ->
  forall n s i k, (i < n)%nat -> (k < 3)%nat ->
    flat_map f (seq s n) !! (3 * i + k)%nat = f (s + i)%nat !! k.
Proof.
  intros Hf. induction n as [|n IH]; intros s i k Hi Hk; [lia|].
  cbn [seq flat_map]. destruct i as [|i].
  - rewrite lookup_app_l by (rewrite Hf; lia). by rewrite Nat.add_0_r.
  - rewrite lookup_app_r by (rewrite Hf; lia). rewrite Hf.
    replace (3 * S i + k - 3)%nat with (3 * i + k)%nat by lia.
    rewrite IH by lia. by replace (S s + i)%nat with (s + S i)%nat by lia.
Qed.

Lemma length_flat_map_triples {A} (f : nat -> list A) :
  (forall i, length (f i) = 3%nat) ->
  forall n s, length (flat_map f (seq s n)) = (3 * n)%nat.
Proof.
  intros Hf. induction n as [|n IH]; intros s; cbn [seq flat_map]; [done|].
  rewrite length_app, IH, Hf. lia.
Qed.

Lemma length_starPositions random n : length (starPositions random n) = (3 * n)%nat.
Proof. unfold starPositions. by apply length_flat_map_triples. Qed.

(** The i-th star, from the three numbers drawn for it. *)
Lemma star_starPositions random n i :
  (i < n)%nat ->
  star (starPositions random n) i
  = let r := 300 + random (3 * i)%nat * 500 in
    let theta := acos (MathUtils.randFloatSpread 2 (random (3 * i + 1)%nat)) in
    let phi := MathUtils.randFloatSpread (PI * 2) (random (3 * i + 2)%nat) in
    Some (Vector3.mk (Float32.fround (r * sin theta * cos phi))
                     (Float32.fround (r * cos theta))
                     (Float32.fround (r * sin theta * sin phi))).
Proof.
  intros Hi. unfold star, starPositions.
  rewrite <- (Nat.add_0_r (3 * i)) at 1.
  rewrite !flat_map_triples by (done || lia). reflexivity.
Qed.

Lemma coordinate_le_norm (a1 a2 a3 : R) :
  Rabs a1 <= sqrt (a1 * a1 + a2 * a2 + a3 * a3).
Proof.
  rewrite <- sqrt_Rsqr_abs. apply sqrt_le_1_alt. unfold Rsqr.
  pose proof (Rle_0_sqr a2). pose proof (Rle_0_sqr a3). unfold Rsqr in *. lra.
Qed.



End stars.

(** ** The orbit line, vertex by vertex *)

Section orbit_vertices.

Lemma orbitPoints_lookup (d : R) (k : nat) :
  (k <= 128)%nat ->
  orbitPoints d !! k
  = Some (Vector3.mk (d * cos (INR k / INR 128 * (2 * PI))) 0
                     (d * sin (INR k / INR 128 * (2 * PI)))).
Proof.
  intros Hk. rewrite orbitPoints_eq, list_lookup_fmap, lookup_seq_lt by lia.
  reflexivity.
Qed.

(** X15.  The orbit line is a regular polygon: its vertex [k] is at the
    angle [2 PI k / 128] on the circle of radius [d]; two consecutive
    vertices are always the same distance apart, the square of which is
    [2 d^2 (1 - cos(2 PI / 128))]; and the vertex half-way round is the
    opposite point. *)
Theorem orbitPoints_regular (d : R) (k : nat) :
  (k < 128)%nat ->
  exists v w,
    orbitPoints d !! k = Some v
    /\ orbitPoints d !! S k = Some w
    /\ v = Vector3.mk (d * cos (2 * PI * INR k / 128)) 0 (d * sin (2 * PI * INR k / 128))
    /\ (Vector3.x w - Vector3.x v) * (Vector3.x w - Vector3.x v)
       + (Vector3.y w - Vector3.y v) * (Vector3.y w - Vector3.y v)
       + (Vector3.z w - Vector3.z v) * (Vector3.z w - Vector3.z v)
       = 2 * d * d * (1 - cos (2 * PI / 128))
    /\ ((k <= 64)%nat ->
        orbitPoints d !! (k + 64)%nat
        = Some (Vector3.mk (- Vector3.x v) 0 (- Vector3.z v))).
Proof.
  intros Hk.
  assert (INR 128 = 128) as H128 by (rewrite INR_IZR_INZ; reflexivity).
  eexists _, _. split; [apply orbitPoints_lookup; lia|].
  split; [apply orbitPoints_lookup; lia|].
  set (a := INR k / INR 128 * (2 * PI)).
  set (b := INR (S k) / INR 128 * (2 * PI)).
  assert (b - a = 2 * PI / 128) as Hba.
  { unfold a, b. rewrite S_INR, H128. field. }
  split; [|split].
  - f_equal; f_equal; f_equal; unfold a; rewrite H128; field.
  - cbn [Vector3.x Vector3.y Vector3.z].
    replace ((d * cos b - d * cos a) * (d * cos b - d * cos a) + (0 - 0) * (0 - 0)
             + (d * sin b - d * sin a) * (d * sin b - d * sin a))
      with (d * d * ((Rsqr (sin b) + Rsqr (cos b)) + (Rsqr (sin a) + Rsqr (cos a))
                     - 2 * (cos b * cos a + sin b * sin a)))
      by (unfold Rsqr; ring).
    rewrite !sin2_cos2, <- cos_minus, Hba. ring.
  - intros Hk64. rewrite orbitPoints_lookup by lia. cbn [Vector3.x Vector3.z].
    replace (INR (k + 64) / INR 128 * (2 * PI)) with (a + PI).
    + rewrite neg_cos, neg_sin. do 2 f_equal; ring.
    + unfold a. rewrite plus_INR, H128.
      replace (INR 64) with 64 by (rewrite INR_IZR_INZ; reflexivity). field.
Qed.

Lemma orbitPoints_regular_witness :
  (32 < 128)%nat
  /\ exists v,
      orbitPoints 48 !! 32%nat = Some v
      /\ orbitPoints 48 !! 96%nat = Some (Vector3.mk (- Vector3.x v) 0 (- Vector3.z v)).
Proof.
  split; [lia|].
  destruct (orbitPoints_regular 48 32 ltac:(lia)) as (v & w & Hv & _ & _ & _ & Hopp).
  exists v. split; [exact Hv|]. exact (Hopp ltac:(lia)).
Defined.

End orbit_vertices.

(** ** The sun and its light *)

(** X16.  The light stays at the centre of the sun.  In every state of the
    program the sun light and the sun mesh are both children of the sun
    group, both at its origin; the sun group is at the origin of the
    scene, not rotated, and the scene is not moved or rotated either; the
    light is no longer a child of the scene, to which it was added first;
    and the sun mesh, which spins, is rotated about y only. *)
Theorem sunLight_at_sun_centre host P :
  reachable host P ->
  exists sceneObj lightObj groupObj sunObj,
    heap P !! scene (globals P) = Some sceneObj
    /\ heap P !! sunLight (globals P) = Some lightObj
    /\ heap P !! sunGroup (globals P) = Some groupObj
    /\ heap P !! sun (globals P) = Some sunObj
    /\ drawable lightObj = PointLight 0xffffff%N 15000
    /\ parent lightObj = Some (sunGroup (globals P))
    /\ parent sunObj = Some (sunGroup (globals P))
    /\ (sunLight (globals P) ∈ children groupObj)
    /\ (sun (globals P) ∈ children groupObj)
    /\ (sunLight (globals P) ∉ children sceneObj)
    /\ position lightObj = Vector3.zero
    /\ position sunObj = Vector3.zero
    /\ parent groupObj = Some (scene (globals P))
    /\ position groupObj = Vector3.zero
    /\ rotation groupObj = Euler.zero
    /\ position sceneObj = Vector3.zero
    /\ rotation sceneObj = Euler.zero
    /\ Euler.x (rotation sunObj) = 0
    /\ Euler.z (rotation sunObj) = 0.
Proof.
  intros HP. destruct (reachable_turnAll host P HP) as (-> & T & HT).
  assert (forall r, (r < 6)%nat ->
            heap P !! r = sceneHeap (random host) !! r) as Hstatic.
  { intros r Hr. rewrite HT, turnAll_lookup, angleOf_notin.
    - destruct (sceneHeap (random host) !! r) as [o|]; [|done].
      cbn. by rewrite add_rotation_y_0.
    - change (r ∉ animated sceneGlobals).
      rewrite animated_sceneGlobals, !elem_of_cons, elem_of_nil. lia. }
  pose proof (Hstatic 0%nat ltac:(lia)) as H0.
  pose proof (Hstatic 3%nat ltac:(lia)) as H3.
  pose proof (Hstatic 5%nat ltac:(lia)) as H5.
  assert (heap P !! 6%nat
          = add_rotation_y (angleOf T (speeds sceneGlobals) 6)
              <$> sceneHeap (random host) !! 6%nat) as H6
    by (by rewrite HT, turnAll_lookup).
  eexists _, _, _, _.
  split; [exact H0|]. split; [exact H3|]. split; [exact H5|]. split; [exact H6|].
  cbn [sceneGlobals scene sunLight sunGroup sun].
  split_and!; try reflexivity.
  - cbn. rewrite !elem_of_cons. auto.
  - cbn. rewrite !elem_of_cons. auto.
  - cbn. rewrite !elem_of_cons, elem_of_nil. lia.
Qed.

Lemma sunLight_at_sun_centre_witness :
  reachable exampleHost (start exampleHost)
  /\ exists lightObj,
      heap (start exampleHost) !! 3%nat = Some lightObj
      /\ parent lightObj = Some 5%nat
      /\ position lightObj = Vector3.zero.
Proof.
  split; [apply reachable_start|].
  destruct (sunLight_at_sun_centre exampleHost (start exampleHost)
              (reachable_start exampleHost))
    as (sceneObj & lightObj & groupObj & sunObj & _ & H3 & _ & _ & _ & Hp & _ & _ & _ & _
        & Hpos & _).
  exists lightObj. split; [exact H3|]. split; [exact Hp|exact Hpos].
Defined.
